(** * Semi-circular coronal loop coordinates and their asdf round trip

    Shallow embedding of [examples/saving_and_loading_data/coordinates_in_asdf.py].

    Numbers.  The script computes with IEEE doubles.  Here a double is an
    exact real or NaN: rounding, overflow and the infinities are left out,
    NaN is kept because the script produces it (the square root of a
    negative discriminant, the arc cosine of a value outside [-1, 1]) and
    relies on comparisons with NaN being false.

    Units.  Lengths are carried in centimetres (the script converts every
    length with [.to(u.cm)]), sampled angles in radians, the latitude of the
    observer and the heliographic angles in degrees.  The unit of a quantity
    is kept only where the script builds a quantity from a Python list,
    because that is where the unit depends on the data. *)

From Stdlib Require Import Reals Lra Lia Psatz List Bool String Factorial.
From Stdlib Require Import Ranalysis5.
From Stdlib Require Import Sorted.
Import ListNotations.
Local Open Scope R_scope.

(** ** Doubles: exact reals and NaN *)

Module Float.

Definition float : Type := option R.

Definition NaN : float := None.

Definition lift1 (op : R -> R) (a : float) : float :=
  match a with
  | Some x => Some (op x)
  | None => None
  end.

Definition lift2 (op : R -> R -> R) (a b : float) : float :=
  match a, b with
  | Some x, Some y => Some (op x y)
  | _, _ => None
  end.

Definition fadd : float -> float -> float := lift2 Rplus.
Definition fsub : float -> float -> float := lift2 Rminus.
Definition fmul : float -> float -> float := lift2 Rmult.
Definition fneg : float -> float := lift1 Ropp.
Definition fcos : float -> float := lift1 cos.
Definition fsin : float -> float := lift1 sin.

(** Division.  [0 / 0] is NaN.  A non-zero dividend over zero would be an
    infinity, which this model does not have; the script divides by a
    value that can be zero only in [length / 2 / x], and [x] is zero only
    when [length] is. *)
Definition fdiv (a b : float) : float :=
  match a, b with
  | Some x, Some y => if Req_dec_T y 0 then None else Some (x / y)
  | _, _ => None
  end.

(** [np.sqrt]: NaN below zero. *)
Definition fsqrt (a : float) : float :=
  match a with
  | Some x => if Rlt_dec x 0 then None else Some (sqrt x)
  | None => None
  end.

(** [np.arccos]: NaN outside [-1, 1]. *)
Definition farccos (a : float) : float :=
  match a with
  | Some x =>
      if Rle_dec (-1) x then
        if Rle_dec x 1 then Some (acos x) else None
      else None
  | None => None
  end.

(** [np.arcsin]: NaN outside [-1, 1]. *)
Definition farcsin (a : float) : float :=
  match a with
  | Some x =>
      if Rle_dec (-1) x then
        if Rle_dec x 1 then Some (asin x) else None
      else None
  | None => None
  end.

(** [np.arctan2 y x] on reals (no signed zero). *)
Definition arctan2 (y x : R) : R :=
  if Rlt_dec 0 x then atan (y / x)
  else if Rlt_dec x 0 then
         if Rle_dec 0 y then atan (y / x) + PI else atan (y / x) - PI
       else if Rlt_dec 0 y then PI / 2
            else if Rlt_dec y 0 then - (PI / 2) else 0.

Definition farctan2 : float -> float -> float := lift2 arctan2.

(** Comparisons: false as soon as one side is NaN. *)
Definition fgt (a b : float) : bool :=
  match a, b with
  | Some x, Some y => if Rlt_dec y x then true else false
  | _, _ => false
  end.

Definition fge (a b : float) : bool :=
  match a, b with
  | Some x, Some y => if Rle_dec y x then true else false
  | _, _ => false
  end.

Definition feq (a b : float) : bool :=
  match a, b with
  | Some x, Some y => if Req_dec_T x y then true else false
  | _, _ => false
  end.

Definition Rltb (x y : R) : bool := if Rlt_dec x y then true else false.

End Float.

Import Float.

(** ** Outcomes of a call *)

Inductive error : Type :=
| SignError          (* ValueError: f(a) and f(b) must have different signs *)
| ConvergenceError   (* RuntimeError: failed to converge after maxiter iterations *)
| UnitsError         (* UnitsError: x, y, and z should have matching physical types *)
| FileNotFound       (* the file to read does not exist *)
| KeyError.          (* the tree has no such key *)

Inductive result (A : Type) : Type :=
| Ok (a : A)
| Err (e : error).

Arguments Ok {A} a.
Arguments Err {A} e.

Definition bind {A B : Type} (m : result A) (k : A -> result B) : result B :=
  match m with
  | Ok a => k a
  | Err e => Err e
  end.

Notation "x <- m ;; k" := (bind m (fun x => k))
  (at level 61, m at next level, right associativity).

(** ** [scipy.optimize.bisect]

    The library routine the script calls, with its default tolerances
    [xtol = 2e-12], [rtol = 4 * eps] and [maxiter = 100].  The function
    values are doubles, so each test is the comparison of doubles. *)

Definition xtol : R := 2e-12.
Definition rtol : R := 4 * / 2 ^ 52.
Definition maxiter : nat := 100.

Fixpoint bisect_loop (f : R -> float) (fa : float) (iter : nat) (xa dm : R)
  : result R :=
  match iter with
  | O => Err ConvergenceError
  | S iter' =>
      let dm := dm * 0.5 in
      let xm := xa + dm in
      let fm := f xm in
      let xa := if fge (fmul fm fa) (Some 0) then xm else xa in
      if feq fm (Some 0) || Rltb (Rabs dm) (xtol + rtol * Rabs xm)
      then Ok xm
      else bisect_loop f fa iter' xa dm
  end.

Definition bisect (f : R -> float) (xa xb : R) : result R :=
  let fa := f xa in
  let fb := f xb in
  if fgt (fmul fa fb) (Some 0) then Err SignError
  else if feq fa (Some 0) then Ok xa
  else if feq fb (Some 0) then Ok xb
  else bisect_loop f fa maxiter xa (xb - xa).

(** ** [np.linspace], [np.where] and indexing with an index array *)

Definition set_last {A : Type} (l : list A) (a : A) : list A :=
  match l with
  | [] => []
  | _ :: _ => removelast l ++ [a]
  end.

(** [np.linspace(start, stop, num)]: [num] samples [start + i * step] with
    [step = (stop - start) / (num - 1)], the last one overwritten by [stop]. *)
Definition linspace (start stop : float) (num : nat) : list float :=
  let step := fdiv (fsub stop start) (Some (INR (num - 1))) in
  let y := map (fun i => fadd (fmul (Some (INR i)) step) start) (seq 0 num) in
  if (1 <? num)%nat then set_last y stop else y.

Fixpoint where_from (i : nat) (mask : list bool) : list nat :=
  match mask with
  | [] => []
  | b :: mask' =>
      if b then i :: where_from (S i) mask' else where_from (S i) mask'
  end.

(** [np.where(mask)]: the indices at which [mask] holds, in order. *)
Definition np_where (mask : list bool) : list nat := where_from 0 mask.

(** [a[idx]] for an index array [idx] (indices come from [np_where], so
    they are in range). *)
Definition take {A : Type} (a : list A) (idx : list nat) : list A :=
  flat_map (fun i => match nth_error a i with Some v => [v] | None => [] end) idx.

(** ** Quantities, frames and coordinate objects *)

Inductive Unit : Type :=
| u_cm     (* a length, in centimetres *)
| u_one.   (* dimensionless *)

Record Quantity : Type := mkQuantity
  { q_value : list float;
    q_unit : Unit }.

(** [u.Quantity(l)] for a Python list [l] of scalar quantities: the unit is
    the one of the first element, and an empty list gives a dimensionless
    quantity.  (The elements built by the script all carry the same unit, so
    no element is converted.) *)
Definition Quantity_of_list (l : list (float * Unit)) : Quantity :=
  match l with
  | [] => mkQuantity [] u_one
  | (_, u) :: _ => mkQuantity (map fst l) u
  end.

Definition unit_eqb (u v : Unit) : bool :=
  match u, v with
  | u_cm, u_cm => true
  | u_one, u_one => true
  | _, _ => false
  end.

(** Position of the observer of a heliocentric frame: heliographic
    Stonyhurst longitude and latitude in degrees, radius in cm. *)
Record Observer : Type := mkObserver
  { obs_lon : R;
    obs_lat : R;
    obs_radius : R }.

Inductive Frame : Type :=
| Heliocentric (observer : Observer)
| HeliographicStonyhurst.

(** A coordinate object: its frame and its points.  In a heliocentric frame
    a point is [(x, y, z)] in cm; in the heliographic Stonyhurst frame it is
    [(lon, lat, radius)] in degrees, degrees and cm. *)
Record SkyCoord : Type := mkSkyCoord
  { frame : Frame;
    data : list (float * float * float) }.

Fixpoint zip3 {A B C : Type} (xs : list A) (ys : list B) (zs : list C)
  : list (A * B * C) :=
  match xs, ys, zs with
  | x :: xs', y :: ys', z :: zs' => (x, y, z) :: zip3 xs' ys' zs'
  | _, _, _ => []
  end.

(** [SkyCoord(x=..., y=..., z=..., frame=...)]: the Cartesian components
    must have matching physical types. *)
Definition SkyCoord_xyz (x y z : Quantity) (fr : Frame) : result SkyCoord :=
  if unit_eqb (q_unit x) (q_unit y) && unit_eqb (q_unit y) (q_unit z)
  then Ok (mkSkyCoord fr (zip3 (q_value x) (q_value y) (q_value z)))
  else Err UnitsError.

(** [coords.shape] and [coords[[0, -1]]]. *)
Definition shape (c : SkyCoord) : nat := List.length (data c).

Definition first_last (c : SkyCoord)
  : option ((float * float * float) * (float * float * float)) :=
  match data c with
  | [] => None
  | p :: _ => Some (p, last (data c) p)
  end.

Definition deg2rad (d : R) : R := d * PI / 180.
Definition rad2deg (r : R) : R := r * 180 / PI.

(** Modelled from the spec: the transformation of a heliocentric point to
    the heliographic Stonyhurst frame ([sunpy.coordinates], not part of the
    example file).  The spec only says that the Cartesian points, given in a
    body-centred frame whose observer sits at longitude 0 and latitude
    [latitudeOffset], are converted to body-centred longitude, latitude and
    radius; this is that conversion: z points to the observer, y to the
    north of the observer's meridian plane, x completes the triad. *)
Definition hcc_to_hgs (o : Observer) (p : float * float * float)
  : float * float * float :=
  let '(x, y, z) := p in
  let cosb := Some (cos (deg2rad (obs_lat o))) in
  let sinb := Some (sin (deg2rad (obs_lat o))) in
  let hecr := fsqrt (fadd (fadd (fmul x x) (fmul y y)) (fmul z z)) in
  let hgln := farctan2 x (fsub (fmul z cosb) (fmul y sinb)) in
  let hglt := farcsin (fdiv (fadd (fmul y cosb) (fmul z sinb)) hecr) in
  (fadd (lift1 rad2deg hgln) (Some (obs_lon o)), lift1 rad2deg hglt, hecr).

(** [coords.transform_to('heliographic_stonyhurst')]. *)
Definition transform_to_hgs (c : SkyCoord) : SkyCoord :=
  match frame c with
  | Heliocentric o => mkSkyCoord HeliographicStonyhurst (map (hcc_to_hgs o) (data c))
  | HeliographicStonyhurst => c
  end.

(** ** [semi_circular_loop] *)

(** [astropy.constants.R_sun]: the nominal solar radius, 6.957e8 m, in cm. *)
Definition R_sun : R := 6.957e10.

(** [r_2_func]; [len] is [length.to(u.cm).value]. *)
Definition r_2_func (len : R) (x : R) : float :=
  fadd (fsub (farccos (Some (0.5 * x / R_sun))) (Some PI))
       (fdiv (Some (len / 2)) (Some x)).

Definition r_2 (len : R) : result R :=
  bisect (r_2_func len) (len / (2 * PI)) (len / PI).

Definition alpha (r2 : R) : float := farccos (Some (0.5 * (r2 / R_sun))).

Definition phi (r2 : R) : list float :=
  linspace (fadd (Some (- PI)) (alpha r2)) (fsub (Some PI) (alpha r2)) 2000.

(** The quadratic formula of the script, for one sampled angle. *)
Definition quad_a : R := 1.
Definition quad_b (p : float) : float :=
  fmul (Some (-2)) (fmul (Some R_sun) (fcos p)).
Definition quad_c (r2 : R) : R := R_sun ^ 2 - r2 ^ 2.

Definition discriminant (r2 : R) (p : float) : float :=
  fsub (fmul (quad_b p) (quad_b p)) (Some (4 * quad_a * quad_c r2)).

Definition r_of (r2 : R) (p : float) : float :=
  fdiv (fdiv (fadd (fneg (quad_b p)) (fsqrt (discriminant r2 p))) (Some 2))
       (Some quad_a).

(** [i_r = np.where(r > r_1)]. *)
Definition i_r (r2 : R) : list nat :=
  np_where (map (fun v => fgt v (Some R_sun)) (map (r_of r2) (phi r2))).

(** The points above the surface, in the heliocentric frame of an observer
    at longitude 0 and latitude [theta0].  The range check of the
    observer's latitude is not modelled: the source can build the observer
    only for [theta0] between -90 and 90 degrees. *)
Definition heliocentric_loop (r2 theta0 : R) : result SkyCoord :=
  let r := take (map (r_of r2) (phi r2)) (i_r r2) in
  let phi := take (phi r2) (i_r r2) in
  let hcc_frame := Heliocentric (mkObserver 0 theta0 R_sun) in
  SkyCoord_xyz
    (mkQuantity (map (fun rp => fmul (fst rp) (fsin (snd rp))) (combine r phi)) u_cm)
    (Quantity_of_list (repeat (Some 0, u_cm) (List.length r)))
    (mkQuantity (map (fun rp => fmul (fst rp) (fcos (snd rp))) (combine r phi)) u_cm)
    hcc_frame.

(** [semi_circular_loop(length, theta0)]; [len] in cm, [theta0] in degrees. *)
Definition semi_circular_loop (len theta0 : R) : result SkyCoord :=
  r2 <- r_2 len ;;
  c <- heliocentric_loop r2 theta0 ;;
  Ok (transform_to_hgs c).

(** * Properties *)

(** ** Lists: selection by a mask *)

(** [np.compress]-style selection, the specification of [take] on the
    result of [np_where]. *)
Fixpoint compress {A : Type} (mask : list bool) (l : list A) : list A :=
  match mask, l with
  | b :: mask', x :: l' => if b then x :: compress mask' l' else compress mask' l'
  | _, _ => []
  end.

Lemma nth_error_skip {A : Type} (pre : list A) (l : list A) :
  nth_error (pre ++ l) (List.length pre) = nth_error l 0.
Proof.
  induction pre as [|a pre IH]; simpl; auto.
Qed.

Lemma take_where_from {A : Type} (mask : list bool) :
  forall (pre l : list A),
    List.length mask = List.length l ->
    take (pre ++ l) (where_from (List.length pre) mask) = compress mask l.
Proof.
  induction mask as [|b mask IH]; intros pre l Hlen.
  - reflexivity.
  - destruct l as [|x l]; [discriminate|].
    simpl in Hlen. injection Hlen as Hlen.
    assert (Hstep : take (pre ++ x :: l) (where_from (S (List.length pre)) mask)
                    = compress mask l).
    { replace (pre ++ x :: l) with ((pre ++ [x]) ++ l)
        by (rewrite <- app_assoc; reflexivity).
      replace (S (List.length pre)) with (List.length (pre ++ [x]))
        by (rewrite length_app; simpl; lia).
      apply IH; assumption. }
    simpl. destruct b; simpl.
    + rewrite nth_error_skip. simpl. rewrite Hstep. reflexivity.
    + exact Hstep.
Qed.

Lemma take_np_where {A : Type} (mask : list bool) (l : list A) :
  List.length mask = List.length l ->
  take l (np_where mask) = compress mask l.
Proof.
  intros H. apply (take_where_from mask [] l H).
Qed.

Lemma compress_map_filter {A : Type} (p : A -> bool) (l : list A) :
  compress (map p l) l = filter p l.
Proof.
  induction l as [|x l IH]; simpl; auto.
  destruct (p x); rewrite IH; reflexivity.
Qed.

Lemma compress_combine {A B : Type} (mask : list bool) :
  forall (xs : list A) (ys : list B),
    combine (compress mask xs) (compress mask ys) = compress mask (combine xs ys).
Proof.
  induction mask as [|b mask IH]; intros xs ys.
  - reflexivity.
  - destruct xs as [|x xs]; [reflexivity|].
    destruct ys as [|y ys].
    + simpl. destruct b; [|destruct (compress mask xs)]; reflexivity.
    + simpl. destruct b; simpl; rewrite IH; reflexivity.
Qed.

Lemma compress_length_le {A : Type} (mask : list bool) :
  forall l : list A, (List.length (compress mask l) <= List.length l)%nat.
Proof.
  induction mask as [|b mask IH]; intros l.
  - simpl. lia.
  - destruct l as [|x l]; simpl; [lia|].
    specialize (IH l). destruct b; simpl; lia.
Qed.

Lemma set_last_app {A : Type} (l : list A) (x v : A) :
  set_last (l ++ [x]) v = l ++ [v].
Proof.
  destruct l as [|a l].
  - reflexivity.
  - unfold set_last. change ((a :: l) ++ [x]) with (a :: (l ++ [x])).
    change (a :: l ++ [x]) with ((a :: l) ++ [x]).
    rewrite removelast_last. reflexivity.
Qed.

Lemma zip3_map {A : Type} (f g h : A -> float) (l : list A) :
  zip3 (map f l) (map g l) (map h l) = map (fun a => (f a, g a, h a)) l.
Proof.
  induction l as [|a l IH]; simpl; [|rewrite IH]; reflexivity.
Qed.

Lemma compress_length {A : Type} (mask : list bool) :
  forall l : list A,
    List.length mask = List.length l ->
    List.length (compress mask l) = List.length (filter (fun b => b) mask).
Proof.
  induction mask as [|b mask IH]; intros l Hlen.
  - reflexivity.
  - destruct l as [|x l]; [discriminate|].
    simpl in Hlen. injection Hlen as Hlen.
    simpl. destruct b; simpl; rewrite (IH l Hlen); reflexivity.
Qed.

Lemma zip3_zero {A : Type} (f h : A -> float) (l : list A) :
  zip3 (map f l) (repeat (Some 0) (List.length l)) (map h l)
  = map (fun a => (f a, Some 0, h a)) l.
Proof.
  induction l as [|a l IH]; simpl; [|rewrite IH]; reflexivity.
Qed.

(** ** [np.linspace] *)

Lemma set_last_length {A : Type} (l : list A) (v : A) :
  List.length (set_last l v) = List.length l.
Proof.
  destruct l as [|a l]; [reflexivity|].
  unfold set_last. rewrite length_app.
  destruct (exists_last (l := a :: l)) as (l' & x & E); [discriminate|].
  rewrite E, removelast_last, length_app. reflexivity.
Qed.

Lemma linspace_length (start stop : float) (num : nat) :
  List.length (linspace start stop num) = num.
Proof.
  unfold linspace. destruct (1 <? num)%nat.
  - rewrite set_last_length, length_map, length_seq. reflexivity.
  - rewrite length_map, length_seq. reflexivity.
Qed.

(** With real end points every sample is [start + i * step], the last one
    included: overwriting it with [stop] changes nothing. *)
Lemma linspace_real (a b : R) (n : nat) :
  linspace (Some a) (Some b) (S (S n))
  = map (fun i => Some (INR i * ((b - a) / INR (S n)) + a)) (seq 0 (S (S n))).
Proof.
  unfold linspace.
  assert (Hn : INR (S n) <> 0) by (apply not_0_INR; discriminate).
  replace (S (S n) - 1)%nat with (S n) by lia.
  replace (1 <? S (S n))%nat with true by (symmetry; apply Nat.ltb_lt; lia).
  unfold fdiv, fsub, lift2. destruct (Req_dec_T (INR (S n)) 0) as [E|_]; [contradiction|].
  unfold fadd, fmul, lift2.
  rewrite (seq_S (S n) 0), !map_app. simpl map at 2. simpl map at 3.
  rewrite set_last_app. f_equal. f_equal. f_equal. simpl (0 + S n)%nat. field. exact Hn.
Qed.

Lemma linspace_nan (num : nat) :
  linspace None None num = repeat None num.
Proof.
  assert (H : forall k, map (fun _ : nat => @None R) (seq k num) = repeat None num).
  { induction num as [|m IH]; intros k; simpl; [reflexivity|]. rewrite IH. reflexivity. }
  unfold linspace. simpl. rewrite H.
  destruct (1 <? num)%nat; [|reflexivity].
  destruct num as [|m]; [reflexivity|].
  replace (repeat (@None R) (S m)) with (repeat (@None R) m ++ [None]).
  - apply set_last_app.
  - rewrite <- repeat_cons. reflexivity.
Qed.

(** ** The stages of [semi_circular_loop] *)

(** The [i]-th sampled angle when the half-angle is the real [al]. *)
Definition phi_at (al : R) (i : nat) : R :=
  INR i * ((PI - al - (- PI + al)) / INR 1999) + (- PI + al).

Lemma phi_real (r2 al : R) :
  alpha r2 = Some al ->
  phi r2 = map (fun i => Some (phi_at al i)) (seq 0 2000).
Proof.
  intros Hal. unfold phi. rewrite Hal. simpl fadd. simpl fsub.
  change 2000%nat with (S (S 1998)).
  rewrite linspace_real. reflexivity.
Qed.

Lemma phi_nan (r2 : R) :
  alpha r2 = None -> phi r2 = repeat None 2000.
Proof.
  intros Hal. unfold phi. rewrite Hal. apply linspace_nan.
Qed.

Lemma phi_length (r2 : R) : List.length (phi r2) = 2000%nat.
Proof. apply linspace_length. Qed.

(** The samples [(r, phi)] before selection, and those kept by
    [r > r_1]. *)
Definition samples (r2 : R) : list (float * float) :=
  combine (map (r_of r2) (phi r2)) (phi r2).

Definition above_surface (rp : float * float) : bool :=
  fgt (fst rp) (Some R_sun).

Definition retained (r2 : R) : list (float * float) :=
  filter above_surface (samples r2).

(** The heliocentric point built from a retained sample. *)
Definition hcc_point (rp : float * float) : float * float * float :=
  (fmul (fst rp) (fsin (snd rp)), Some 0, fmul (fst rp) (fcos (snd rp))).

(** ** Saving and loading with asdf *)

(** [coords.frame]: the frame object under a [SkyCoord], with its data. *)
Record CoordinateFrame : Type := mkCoordinateFrame
  { cf_frame : Frame;
    cf_data : list (float * float * float) }.

Definition frame_of (c : SkyCoord) : CoordinateFrame :=
  mkCoordinateFrame (frame c) (data c).

(** [SkyCoord(coords)] for a frame object. *)
Definition SkyCoord_of_frame (f : CoordinateFrame) : SkyCoord :=
  mkSkyCoord (cf_frame f) (cf_data f).

(** An asdf tree: a dictionary from keys to values, here frame objects. *)
Definition Tree : Type := list (string * CoordinateFrame).

Fixpoint tree_get (t : Tree) (key : string) : result CoordinateFrame :=
  match t with
  | [] => Err KeyError
  | (k, v) :: t' => if String.eqb k key then Ok v else tree_get t' key
  end.

(** The files, by path. *)
Definition FileSystem : Type := string -> option Tree.

(** Modelled from the spec: [asdf.AsdfFile(tree).write_to(path)] (the asdf
    library and the sunpy converters for frames are not part of the example
    file).  The spec requires of it that the tree is written to the path
    with full fidelity of the value, so that reading reconstructs an
    equivalent value: the file holds the tree.  The path is taken to be
    writable: the I/O error of an unwritable path is not modelled. *)
Definition asdf_write_to (tree : Tree) (path : string) (fs : FileSystem)
  : FileSystem :=
  fun p => if String.eqb p path then Some tree else fs p.

(** Modelled from the spec: [asdf.open(path).tree]; it fails when the file
    is absent. *)
Definition asdf_open (path : string) (fs : FileSystem) : result Tree :=
  match fs path with
  | Some t => Ok t
  | None => Err FileNotFound
  end.

(** Lines 111 to 123 of the script: build the tree, write it, read it back
    and wrap the frame read in a [SkyCoord]. *)
Definition save_and_load (loop_coords : SkyCoord) (fs : FileSystem)
  : result (FileSystem * SkyCoord) :=
  let tree := [("loop_points"%string, frame_of loop_coords)] in
  let fs := asdf_write_to tree "loop_coords.asdf" fs in
  input_asdf <- asdf_open "loop_coords.asdf" fs ;;
  coords <- tree_get input_asdf "loop_points" ;;
  Ok (fs, SkyCoord_of_frame coords).

(** The point with the opposite first component: the opposite [x] in the
    heliocentric frame, the opposite longitude in the heliographic one. *)
Definition flip_first (pt : float * float * float) : float * float * float :=
  let '(a, b, c) := pt in (fneg a, b, c).

(** C6 as the claim words it: the longitude and the latitude offsets of
    the first and the last point from the anchor [(0, theta0)] are opposite. *)
Definition C6_as_stated (len theta0 : R) : Prop :=
  forall c lon1 lat1 rad1 lon2 lat2 rad2,
    semi_circular_loop len theta0 = Ok c ->
    first_last c = Some ((Some lon1, Some lat1, rad1), (Some lon2, Some lat2, rad2)) ->
    lon2 - 0 = - (lon1 - 0) /\ lat2 - theta0 = - (lat1 - theta0).



(** The sample at the opposite angle. *)
Definition mirror (rp : float * float) : float * float :=
  (fst rp, fneg (snd rp)).

Lemma samples_map (r2 : R) :
  samples r2 = map (fun p => (r_of r2 p, p)) (phi r2).
Proof.
  unfold samples. induction (phi r2) as [|p l IH]; simpl; [|rewrite IH]; reflexivity.
Qed.

Lemma selected_by_mask {A : Type} (f : A -> float) (p : float -> bool) (l : list A) :
  combine (take (map f l) (np_where (map p (map f l))))
          (take l (np_where (map p (map f l))))
  = filter (fun rp => p (fst rp)) (combine (map f l) l).
Proof.
  rewrite !take_np_where by (rewrite !length_map; reflexivity).
  rewrite compress_combine, <- compress_map_filter. f_equal.
  induction l as [|a l IH]; simpl; [|rewrite IH]; reflexivity.
Qed.

Lemma selected_retained (r2 : R) :
  combine (take (map (r_of r2) (phi r2)) (i_r r2)) (take (phi r2) (i_r r2))
  = retained r2.
Proof.
  exact (selected_by_mask (r_of r2) (fun v => fgt v (Some R_sun)) (phi r2)).
Qed.

Lemma selected_length (r2 : R) :
  List.length (take (map (r_of r2) (phi r2)) (i_r r2)) = List.length (retained r2).
Proof.
  rewrite <- selected_retained, length_combine.
  unfold i_r. rewrite !take_np_where by (rewrite !length_map; reflexivity).
  rewrite !compress_length by (rewrite !length_map; reflexivity).
  apply eq_sym, Nat.min_id.
Qed.

(** [heliocentric_loop] in terms of the retained samples: the y component
    is built from a list with one [0 cm] per retained sample, so it is a
    length only if a sample was retained. *)
Lemma heliocentric_loop_eq (r2 theta0 : R) :
  heliocentric_loop r2 theta0
  = match retained r2 with
    | [] => Err UnitsError
    | _ :: _ =>
        Ok (mkSkyCoord (Heliocentric (mkObserver 0 theta0 R_sun))
                       (map hcc_point (retained r2)))
    end.
Proof.
  unfold heliocentric_loop.
  rewrite selected_retained, selected_length.
  generalize (retained r2). intros l.
  destruct l as [|rp l]; [reflexivity|].
  assert (Hy : Quantity_of_list (repeat (Some 0, u_cm) (List.length (rp :: l)))
               = mkQuantity (repeat (Some 0) (List.length (rp :: l))) u_cm).
  { simpl. f_equal. f_equal. generalize (List.length l). intros n.
    induction n as [|n IH]; simpl; [|rewrite IH]; reflexivity. }
  rewrite Hy. unfold SkyCoord_xyz.
  cbn [q_unit q_value unit_eqb andb].
  rewrite (zip3_zero (fun rp => fmul (fst rp) (fsin (snd rp)))
                     (fun rp => fmul (fst rp) (fcos (snd rp)))).
  reflexivity.
Qed.

(** ** Comparisons of doubles *)

Lemma fgt_true (a b : float) :
  fgt a b = true <-> exists x y, a = Some x /\ b = Some y /\ y < x.
Proof.
  unfold fgt. split.
  - destruct a as [x|], b as [y|]; try discriminate.
    destruct (Rlt_dec y x); [|discriminate]. intros _. exists x, y. auto.
  - intros (x & y & -> & -> & H). destruct (Rlt_dec y x); [reflexivity|contradiction].
Qed.

Lemma fge_true (a b : float) :
  fge a b = true <-> exists x y, a = Some x /\ b = Some y /\ y <= x.
Proof.
  unfold fge. split.
  - destruct a as [x|], b as [y|]; try discriminate.
    destruct (Rle_dec y x); [|discriminate]. intros _. exists x, y. auto.
  - intros (x & y & -> & -> & H). destruct (Rle_dec y x); [reflexivity|contradiction].
Qed.

Lemma feq_true (a b : float) :
  feq a b = true <-> exists x, a = Some x /\ b = Some x.
Proof.
  unfold feq. split.
  - destruct a as [x|], b as [y|]; try discriminate.
    destruct (Req_dec_T x y) as [->|]; [|discriminate]. intros _. exists y. auto.
  - intros (x & -> & ->). destruct (Req_dec_T x x); [reflexivity|contradiction].
Qed.

Lemma Rltb_true (x y : R) : Rltb x y = true <-> x < y.
Proof.
  unfold Rltb. destruct (Rlt_dec x y); split; auto; discriminate.
Qed.

(** ** The bisection loop *)

Section Bisect.

Variable f : R -> float.
Variable fa : float.

(** The test [fm * fa >= 0] of the loop. *)
Definition same_side (x : R) : bool := fge (fmul (f x) fa) (Some 0).

(** A bracket [xl, xl + dl]: the test holds on the left, fails on the
    right. *)
Definition bracket (xl dl : R) : Prop :=
  0 < dl /\ same_side xl = true /\ same_side (xl + dl) = false.

Lemma bisect_loop_bracket (iter : nat) :
  forall xa dm xm,
    bracket xa dm ->
    bisect_loop f fa iter xa dm = Ok xm ->
    exists xl dl,
      bracket xl dl /\ xa <= xl /\ xl + dl <= xa + dm /\ xm = xl + dl / 2 /\
      (f xm = Some 0 \/ dl / 2 < xtol + rtol * Rabs xm).
Proof.
  induction iter as [|iter IH]; intros xa dm xm Hb Hrun.
  - discriminate.
  - simpl in Hrun.
    destruct Hb as (Hdm & Hl & Hr).
    destruct (feq (f (xa + dm * 0.5)) (Some 0)
              || Rltb (Rabs (dm * 0.5))
                      (xtol + rtol * Rabs (xa + dm * 0.5))) eqn:Htest.
    + injection Hrun as <-. exists xa, dm.
      split; [repeat split; assumption|].
      split; [lra|]. split; [lra|]. split; [lra|].
      apply orb_true_iff in Htest. destruct Htest as [H0|Ht].
      * left. apply feq_true in H0. destruct H0 as (x & -> & E). congruence.
      * right. apply Rltb_true in Ht. rewrite Rabs_pos_eq in Ht by lra. lra.
    + fold (same_side (xa + dm * 0.5)) in Hrun.
      destruct (same_side (xa + dm * 0.5)) eqn:Hm.
      * destruct (IH _ _ _ (conj (ltac:(lra) : 0 < dm * 0.5)
                              (conj Hm (eq_trans (f_equal same_side
                                 (ltac:(lra) : xa + dm * 0.5 + dm * 0.5 = xa + dm)) Hr)))
                     Hrun)
          as (xl & dl & Hb' & H1 & H2 & H3 & H4).
        exists xl, dl. repeat split; try assumption; try apply Hb'; lra.
      * destruct (IH _ _ _ (conj (ltac:(lra) : 0 < dm * 0.5) (conj Hl Hm)) Hrun)
          as (xl & dl & Hb' & H1 & H2 & H3 & H4).
        exists xl, dl. repeat split; try assumption; try apply Hb'; lra.
Qed.

Lemma bisect_loop_converges (iter : nat) :
  forall xa dm,
    (0 < iter)%nat -> 0 < dm -> dm / 2 ^ iter < xtol ->
    exists xm, bisect_loop f fa iter xa dm = Ok xm.
Proof.
  assert (Hrtol : 0 < rtol) by (unfold rtol; lra).
  induction iter as [|iter IH]; intros xa dm Hi Hdm Hsmall; [lia|].
  simpl bisect_loop.
  destruct (feq (f (xa + dm * 0.5)) (Some 0)
            || Rltb (Rabs (dm * 0.5))
                    (xtol + rtol * Rabs (xa + dm * 0.5))) eqn:Htest.
  - eexists. reflexivity.
  - assert (Hpow : 0 < 2 ^ iter) by (apply pow_lt; lra).
    assert (Hsmall' : dm * 0.5 / 2 ^ iter < xtol).
    { replace (dm * 0.5 / 2 ^ iter) with (dm / 2 ^ S iter); [assumption|].
      replace 0.5 with (/ 2) by lra. simpl. field. lra. }
    destruct iter as [|iter'].
    + exfalso. apply orb_false_iff in Htest. destruct Htest as [_ Ht].
      assert (Hlt : Rltb (Rabs (dm * 0.5))
                         (xtol + rtol * Rabs (xa + dm * 0.5)) = true).
      { apply Rltb_true. rewrite (Rabs_pos_eq (dm * 0.5)) by lra.
        simpl in Hsmall'.
        pose proof (Rabs_pos (xa + dm * 0.5)) as Hp.
        assert (0 <= rtol * Rabs (xa + dm * 0.5)) by (apply Rmult_le_pos; lra).
        lra. }
      congruence.
    + apply IH; [lia|lra|assumption].
Qed.

End Bisect.

(** ** Real arithmetic helpers *)

Lemma Rdiv_le_iff (a b c : R) : 0 < c -> (a / c <= b <-> a <= b * c).
Proof.
  intros Hc. split; intros H.
  - replace a with (a / c * c) by (field; lra). apply Rmult_le_compat_r; lra.
  - replace b with (b * c / c) by (field; lra).
    unfold Rdiv. apply Rmult_le_compat_r; [|assumption].
    apply Rlt_le, Rinv_0_lt_compat, Hc.
Qed.

Lemma Rdiv_ge_iff (a b c : R) : 0 < c -> (b <= a / c <-> b * c <= a).
Proof.
  intros Hc. split; intros H.
  - replace a with (a / c * c) by (field; lra). apply Rmult_le_compat_r; lra.
  - replace b with (b * c / c) by (field; lra).
    unfold Rdiv. apply Rmult_le_compat_r; [|assumption].
    apply Rlt_le, Rinv_0_lt_compat, Hc.
Qed.

Lemma Rdiv_lt_iff (a b c : R) : 0 < c -> (a / c < b <-> a < b * c).
Proof.
  intros Hc. split; intros H.
  - destruct (Rlt_le_dec a (b * c)) as [|Hge]; [assumption|].
    apply Rdiv_ge_iff in Hge; lra.
  - destruct (Rlt_le_dec (a / c) b) as [|Hge]; [assumption|].
    apply Rdiv_ge_iff in Hge; lra.
Qed.

Lemma Rdiv_gt_iff (a b c : R) : 0 < c -> (b < a / c <-> b * c < a).
Proof.
  intros Hc. split; intros H.
  - destruct (Rlt_le_dec (b * c) a) as [|Hge]; [assumption|].
    apply Rdiv_le_iff in Hge; lra.
  - destruct (Rlt_le_dec b (a / c)) as [|Hge]; [assumption|].
    apply Rdiv_le_iff in Hge; lra.
Qed.

Lemma PI_bounds : 3 < PI <= 4.
Proof.
  split; [pose proof PI2_3_2; lra | apply PI_4].
Qed.

Lemma R_sun_pos : 0 < R_sun.
Proof. unfold R_sun. lra. Qed.

Lemma cos_PI_minus (s : R) : cos (PI - s) = - cos s.
Proof.
  rewrite cos_minus, cos_PI, sin_PI. ring.
Qed.

(** [acos] against an angle of [0, PI]. *)
Lemma acos_ge_iff (u t : R) :
  -1 <= u <= 1 -> 0 <= t <= PI -> (t <= acos u <-> u <= cos t).
Proof.
  intros Hu Ht. pose proof (acos_bound u) as Hb. split; intros H.
  - rewrite <- (cos_acos u Hu). apply cos_decr_1; lra.
  - destruct (Rle_lt_dec t (acos u)) as [|Hlt]; [assumption|].
    assert (cos t < cos (acos u)) by (apply cos_decreasing_1; lra).
    rewrite cos_acos in *; lra.
Qed.

Lemma acos_le_iff (u t : R) :
  -1 <= u <= 1 -> 0 <= t <= PI -> (acos u <= t <-> cos t <= u).
Proof.
  intros Hu Ht. pose proof (acos_bound u) as Hb. split; intros H.
  - rewrite <- (cos_acos u Hu). apply cos_decr_1; lra.
  - destruct (Rle_lt_dec (acos u) t) as [|Hlt]; [assumption|].
    assert (cos (acos u) < cos t) by (apply cos_decreasing_1; lra).
    rewrite cos_acos in *; lra.
Qed.

(** ** The root equation *)

(** The value of [r_2_func] where it is a real. *)
Definition root_eq (len x : R) : R :=
  acos (0.5 * x / R_sun) - PI + len / 2 / x.

(** The same equation without the arc cosine: on the bracket the two have
    opposite signs and the same zeros. *)
Definition chord_eq (len x : R) : R :=
  0.5 * x / R_sun + cos (len / 2 / x).

Lemma r_2_func_real (len x : R) :
  x <> 0 -> -1 <= 0.5 * x / R_sun <= 1 ->
  r_2_func len x = Some (root_eq len x).
Proof.
  intros Hx [H1 H2]. unfold r_2_func, farccos, fdiv, fsub, fadd, lift2, root_eq.
  destruct (Rle_dec (-1) (0.5 * x / R_sun)); [|contradiction].
  destruct (Rle_dec (0.5 * x / R_sun) 1); [|contradiction].
  destruct (Req_dec_T x 0); [contradiction|]. reflexivity.
Qed.

Lemma r_2_func_some (len x v : R) :
  r_2_func len x = Some v ->
  x <> 0 /\ -1 <= 0.5 * x / R_sun <= 1 /\ v = root_eq len x.
Proof.
  unfold r_2_func, farccos, fdiv, fsub, fadd, lift2, root_eq.
  destruct (Rle_dec (-1) (0.5 * x / R_sun)); [|discriminate].
  destruct (Rle_dec (0.5 * x / R_sun) 1); [|discriminate].
  destruct (Req_dec_T x 0); [discriminate|].
  intros E. injection E as <-. auto.
Qed.

Lemma chord_eq_continuous (len x : R) : 0 < x -> continuity_pt (chord_eq len) x.
Proof.
  intros Hx. apply derivable_continuous_pt. unfold chord_eq.
  pose proof R_sun_pos. reg; unfold fct_cte, id; lra.
Qed.

Section RootEquation.

Variable len : R.
Hypothesis len_pos : 0 < len.

Let a : R := len / (2 * PI).
Let b : R := len / PI.

Lemma bracket_pos : 0 < a /\ a < b.
Proof.
  pose proof PI_bounds as [HP1 HP2]. unfold a, b. split.
  - apply Rdiv_lt_0_compat; lra.
  - apply Rdiv_lt_iff; [lra|]. replace (len / PI * (2 * PI)) with (2 * len) by (field; lra). lra.
Qed.

(** On the bracket, [len / 2 / x] is an angle of [PI/2, PI]. *)
Lemma half_angle_range (x : R) :
  a <= x <= b -> PI / 2 <= len / 2 / x <= PI.
Proof.
  pose proof PI_bounds as [HP1 HP2]. pose proof bracket_pos as [Ha Hab].
  unfold a, b in *. intros [H1 H2].
  assert (Hx : 0 < x) by lra.
  apply Rdiv_le_iff in H1; [|lra]. apply Rdiv_ge_iff in H2; [|lra].
  split.
  - apply Rdiv_ge_iff; [lra|]. nra.
  - apply Rdiv_le_iff; [lra|]. nra.
Qed.

Lemma root_eq_nonneg_iff (x : R) :
  a <= x <= b -> x <= 2 * R_sun ->
  (0 <= root_eq len x <-> chord_eq len x <= 0).
Proof.
  intros Hx H2R. pose proof (half_angle_range x Hx) as Hs.
  pose proof bracket_pos as [Ha Hab]. pose proof R_sun_pos as HR.
  assert (Hu : -1 <= 0.5 * x / R_sun <= 1).
  { split.
    - apply Rdiv_ge_iff; lra.
    - apply Rdiv_le_iff; lra. }
  unfold root_eq, chord_eq.
  pose proof (acos_ge_iff (0.5 * x / R_sun) (PI - len / 2 / x) Hu
                ltac:(lra)) as Hiff.
  rewrite cos_PI_minus in Hiff. split; intros H.
  - assert (PI - len / 2 / x <= acos (0.5 * x / R_sun)) by lra.
    apply Hiff in H0. lra.
  - assert (0.5 * x / R_sun <= - cos (len / 2 / x)) by lra.
    apply Hiff in H0. lra.
Qed.

Lemma chord_eq_zero_root (x : R) :
  a <= x <= b -> x <= 2 * R_sun -> chord_eq len x = 0 -> root_eq len x = 0.
Proof.
  intros Hx H2R Hz. pose proof (half_angle_range x Hx) as Hs.
  unfold root_eq, chord_eq in *.
  replace (0.5 * x / R_sun) with (cos (PI - len / 2 / x))
    by (rewrite cos_PI_minus; lra).
  rewrite acos_cos by lra. lra.
Qed.

End RootEquation.

(** ** Root finding for a positive length *)

Lemma same_side_pos (f : R -> float) (va x : R) :
  0 < va ->
  (same_side f (Some va) x = true <-> exists v, f x = Some v /\ 0 <= v).
Proof.
  intros Hva. unfold same_side. rewrite fge_true. split.
  - intros (p & y & Hp & Hy & Hle). injection Hy as <-.
    destruct (f x) as [v|]; [|discriminate]. injection Hp as <-.
    exists v. split; [reflexivity|]. nra.
  - intros (v & -> & Hv). exists (v * va), 0. repeat split; nra.
Qed.

Lemma tolerance_pos (x : R) : 0 < xtol + rtol * Rabs x.
Proof.
  pose proof (Rabs_pos x). assert (0 < rtol) by (unfold rtol; lra).
  assert (0 < xtol) by (unfold xtol; lra).
  assert (0 <= rtol * Rabs x) by (apply Rmult_le_pos; lra). lra.
Qed.

Section PositiveLength.

Variable len : R.
Hypothesis len_pos : 0 < len.
Hypothesis len_small : len < 4 * PI * R_sun.

Let a : R := len / (2 * PI).
Let b : R := len / PI.

Lemma left_end : 0 < a /\ a < b /\ a < 2 * R_sun.
Proof.
  pose proof PI_bounds as [HP1 HP2]. pose proof R_sun_pos as HR.
  pose proof (bracket_pos len len_pos) as [Ha Hab]. fold a in Ha, Hab. fold b in Hab.
  repeat split; try assumption.
  unfold a. apply Rdiv_lt_iff; [lra|]. nra.
Qed.

Lemma half_angle_left : len / 2 / a = PI.
Proof.
  pose proof PI_bounds as [HP1 HP2]. unfold a. field. split; lra.
Qed.

Lemma half_angle_right : len / 2 / b = PI / 2.
Proof.
  pose proof PI_bounds as [HP1 HP2]. unfold b. field. split; lra.
Qed.

Lemma value_left :
  exists va, r_2_func len a = Some va /\ 0 < va.
Proof.
  pose proof left_end as (Ha & Hab & Ha2). pose proof R_sun_pos as HR.
  assert (Hu : -1 < 0.5 * a / R_sun < 1).
  { split; [apply Rdiv_gt_iff | apply Rdiv_lt_iff]; lra. }
  exists (root_eq len a). split.
  - apply r_2_func_real; lra.
  - unfold root_eq. rewrite half_angle_left.
    pose proof (acos_bound_lt _ Hu). lra.
Qed.

(** Inside the bracket the loop test is: the equation is defined and the
    chord form is not positive. *)
Lemma same_side_chord (va x : R) :
  0 < va -> a <= x <= b ->
  (same_side (r_2_func len) (Some va) x = true
   <-> x <= 2 * R_sun /\ chord_eq len x <= 0).
Proof.
  intros Hva Hx. pose proof left_end as (Ha & Hab & Ha2). pose proof R_sun_pos as HR.
  rewrite same_side_pos by assumption. split.
  - intros (v & Hv & Hpos). apply r_2_func_some in Hv.
    destruct Hv as (Hx0 & Hu & ->).
    assert (H2R : x <= 2 * R_sun).
    { destruct Hu as [_ Hu]. apply Rdiv_le_iff in Hu; lra. }
    split; [assumption|].
    apply (root_eq_nonneg_iff len len_pos x Hx H2R). assumption.
  - intros (H2R & Hc). exists (root_eq len x). split.
    + apply r_2_func_real; [lra|].
      split; [apply Rdiv_ge_iff | apply Rdiv_le_iff]; lra.
    + apply (root_eq_nonneg_iff len len_pos x Hx H2R). assumption.
Qed.

Lemma right_end_other_side (va : R) :
  0 < va -> same_side (r_2_func len) (Some va) b = false.
Proof.
  intros Hva. pose proof left_end as (Ha & Hab & Ha2). pose proof R_sun_pos as HR.
  destruct (same_side (r_2_func len) (Some va) b) eqn:E; [|reflexivity].
  apply same_side_chord in E; [|assumption|lra].
  destruct E as [H2R Hc]. unfold chord_eq in Hc.
  rewrite half_angle_right, cos_PI2 in Hc.
  assert (0 < 0.5 * b / R_sun) by (apply Rdiv_gt_iff; lra). lra.
Qed.

Lemma chord_eq_top : 0 < chord_eq len (2 * R_sun).
Proof.
  pose proof PI_bounds as [HP1 HP2]. pose proof R_sun_pos as HR.
  unfold chord_eq.
  replace (0.5 * (2 * R_sun) / R_sun) with 1
    by (replace 0.5 with (/ 2) by lra; field; lra).
  assert (Hs : 0 < len / 2 / (2 * R_sun) < PI).
  { split; [apply Rdiv_gt_iff | apply Rdiv_lt_iff]; lra. }
  assert (cos PI < cos (len / 2 / (2 * R_sun)))
    by (apply cos_decreasing_1; lra).
  rewrite cos_PI in *. lra.
Qed.

(** A bracket of the loop contains an exact zero of the equation. *)
Lemma bracket_has_root (va xl dl : R) :
  0 < va -> a <= xl -> xl + dl <= b ->
  bracket (r_2_func len) (Some va) xl dl ->
  exists z, xl <= z <= xl + dl /\ z <= 2 * R_sun /\ root_eq len z = 0.
Proof.
  intros Hva Hl Hr (Hdl & Hsl & Hsr).
  pose proof left_end as (Ha & Hab & Ha2).
  apply same_side_chord in Hsl; [|assumption|lra]. destruct Hsl as [Hl2 Hcl].
  assert (Hy : exists y, xl <= y <= xl + dl /\ y <= 2 * R_sun /\ 0 < chord_eq len y).
  { destruct (Rle_lt_dec (xl + dl) (2 * R_sun)) as [Hin|Hout].
    - exists (xl + dl). repeat split; try lra.
      destruct (Rlt_le_dec 0 (chord_eq len (xl + dl))) as [|Hle]; [assumption|].
      assert (same_side (r_2_func len) (Some va) (xl + dl) = true)
        by (apply same_side_chord; [assumption|lra|split; assumption]).
      congruence.
    - exists (2 * R_sun). repeat split; try lra. apply chord_eq_top. }
  destruct Hy as (y & Hy1 & Hy2 & Hcy).
  destruct (Req_dec_T (chord_eq len xl) 0) as [Hz|Hnz].
  - exists xl. repeat split; try lra.
    apply (chord_eq_zero_root len len_pos); [fold a b; lra|lra|assumption].
  - assert (Hlt : xl < y).
    { destruct (Req_dec_T xl y) as [->|]; lra. }
    destruct (IVT_interv (chord_eq len) xl y) as (z & Hz & Hcz).
    + intros t Ht. apply chord_eq_continuous. lra.
    + assumption.
    + lra.
    + assumption.
    + exists z. repeat split; try lra.
      apply (chord_eq_zero_root len len_pos); [fold a b; lra|lra|assumption].
Qed.

Lemma width_small : (b - a) / 2 ^ 100 < xtol.
Proof.
  pose proof left_end as (Ha & Hab & Ha2). pose proof PI_bounds as [HP1 HP2].
  assert (E : b - a = a) by (unfold a, b; field; lra).
  rewrite E. unfold R_sun in Ha2. unfold xtol.
  apply Rdiv_lt_iff; [apply pow_lt; lra|].
  simpl pow. lra.
Qed.

(** The root finder returns, inside the bracket, a value within its
    tolerance of an exact zero of the equation. *)
Lemma r_2_near_root :
  exists r2 z,
    r_2 len = Ok r2 /\ a <= r2 <= b /\
    a <= z <= b /\ z <= 2 * R_sun /\ root_eq len z = 0 /\
    Rabs (r2 - z) < xtol + rtol * Rabs r2.
Proof.
  pose proof left_end as (Ha & Hab & Ha2).
  destruct value_left as (va & Hfa & Hva).
  pose proof (right_end_other_side va Hva) as Hsb.
  assert (Hsa : same_side (r_2_func len) (Some va) a = true).
  { apply same_side_pos; [assumption|]. exists va. split; [assumption|lra]. }
  assert (Hrun : r_2 len = bisect_loop (r_2_func len) (Some va) maxiter a (b - a)).
  { unfold r_2, bisect. fold a b. rewrite Hfa.
    destruct (fgt (fmul (Some va) (r_2_func len b)) (Some 0)) eqn:Hs.
    { exfalso. apply fgt_true in Hs. destruct Hs as (p & y & Hp & Hy & Hlt).
      injection Hy as <-.
      assert (same_side (r_2_func len) (Some va) b = true).
      { unfold same_side. apply fge_true.
        destruct (r_2_func len b) as [vb|]; [|discriminate]. injection Hp as <-.
        exists (vb * va), 0. repeat split; nra. }
      congruence. }
    destruct (feq (Some va) (Some 0)) eqn:H0.
    { exfalso. apply feq_true in H0. destruct H0 as (x & E1 & E2).
      injection E1 as <-. injection E2 as E2. lra. }
    destruct (feq (r_2_func len b) (Some 0)) eqn:Hb0.
    { exfalso. apply feq_true in Hb0. destruct Hb0 as (x & E1 & E2).
      injection E2 as <-.
      assert (same_side (r_2_func len) (Some va) b = true).
      { apply same_side_pos; [assumption|]. exists 0. split; [assumption|lra]. }
      congruence. }
    reflexivity. }
  assert (Hb0 : bracket (r_2_func len) (Some va) a (b - a)).
  { repeat split; [lra|assumption|]. replace (a + (b - a)) with b by ring. assumption. }
  destruct (bisect_loop_converges (r_2_func len) (Some va) maxiter a (b - a))
    as (xm & Hxm).
  { unfold maxiter. lia. }
  { lra. }
  { apply width_small. }
  destruct (bisect_loop_bracket _ _ _ _ _ _ Hb0 Hxm)
    as (xl & dl & Hbr & Hl & Hr & -> & Hstop).
  pose proof Hbr as (Hdl & _ & _).
  exists (xl + dl / 2).
  destruct Hstop as [Hzero|Htol].
  - apply r_2_func_some in Hzero. destruct Hzero as (Hx0 & Hu & Hval).
    exists (xl + dl / 2). rewrite Hrun.
    split; [assumption|]. split; [lra|]. split; [lra|].
    split; [destruct Hu as [_ Hu]; pose proof R_sun_pos; apply Rdiv_le_iff in Hu; lra|].
    split; [symmetry; assumption|].
    replace (xl + dl / 2 - (xl + dl / 2)) with 0 by ring.
    rewrite Rabs_R0. apply tolerance_pos.
  - destruct (bracket_has_root va xl dl Hva Hl ltac:(lra) Hbr)
      as (z & Hz & Hz2 & Hroot).
    exists z. rewrite Hrun.
    split; [assumption|]. split; [lra|]. split; [lra|].
    split; [assumption|]. split; [assumption|].
    eapply Rle_lt_trans; [|exact Htol].
    apply Rabs_le. lra.
Qed.

End PositiveLength.

(** ** The radial distance of a sample *)

(** Discriminant and root of the quadratic for a real angle. *)
Definition disc_at (r2 p : R) : R :=
  (-2 * (R_sun * cos p)) * (-2 * (R_sun * cos p)) - 4 * quad_a * quad_c r2.

Definition r_at (r2 p : R) : R :=
  (- (-2 * (R_sun * cos p)) + sqrt (disc_at r2 p)) / 2 / quad_a.

Lemma discriminant_real (r2 p : R) :
  discriminant r2 (Some p) = Some (disc_at r2 p).
Proof. reflexivity. Qed.

Lemma r_of_real (r2 p : R) :
  r_of r2 (Some p)
  = if Rlt_dec (disc_at r2 p) 0 then None else Some (r_at r2 p).
Proof.
  unfold r_of. rewrite discriminant_real. unfold fsqrt.
  destruct (Rlt_dec (disc_at r2 p) 0); [reflexivity|].
  unfold quad_b, fneg, fmul, fcos, fadd, fdiv, lift1, lift2.
  destruct (Req_dec_T 2 0); [lra|].
  destruct (Req_dec_T quad_a 0) as [E|_]; [unfold quad_a in E; lra|].
  reflexivity.
Qed.

Lemma r_of_nan (r2 : R) : r_of r2 None = None.
Proof. reflexivity. Qed.

Lemma r_of_some (r2 : R) (p : float) (r : R) :
  r_of r2 p = Some r ->
  exists x, p = Some x /\ 0 <= disc_at r2 x /\ r = r_at r2 x.
Proof.
  destruct p as [x|]; [|discriminate].
  rewrite r_of_real. destruct (Rlt_dec (disc_at r2 x) 0); [discriminate|].
  intros E. injection E as <-. exists x. repeat split. lra.
Qed.

Lemma disc_at_eq (r2 p : R) :
  disc_at r2 p = 4 * (r2 ^ 2 - R_sun ^ 2 * sin p ^ 2).
Proof.
  unfold disc_at, quad_a, quad_c.
  pose proof (sin2_cos2 p) as H. unfold Rsqr in H.
  replace (cos p) with (cos p) by reflexivity.
  assert (Hc : cos p * cos p = 1 - sin p * sin p) by lra.
  transitivity (4 * R_sun ^ 2 * (cos p * cos p) - 4 * (R_sun ^ 2 - r2 ^ 2)); [ring|].
  rewrite Hc. ring.
Qed.

(** The computed distance solves the quadratic and is its larger root. *)
Lemma r_at_root (r2 p : R) :
  0 <= disc_at r2 p ->
  quad_a * r_at r2 p ^ 2 + (-2 * (R_sun * cos p)) * r_at r2 p + quad_c r2 = 0.
Proof.
  intros Hd. unfold r_at. set (d := disc_at r2 p) in *.
  pose proof (sqrt_sqrt d Hd) as Hs.
  assert (Hd' : d = (-2 * (R_sun * cos p)) * (-2 * (R_sun * cos p))
                    - 4 * quad_a * quad_c r2) by reflexivity.
  unfold quad_a in *. 
  replace ((- (-2 * (R_sun * cos p)) + sqrt d) / 2 / 1)
    with (R_sun * cos p + sqrt d / 2) by field.
  nra.
Qed.

Lemma r_at_largest (r2 p r' : R) :
  0 <= disc_at r2 p ->
  quad_a * r' ^ 2 + (-2 * (R_sun * cos p)) * r' + quad_c r2 = 0 ->
  r' <= r_at r2 p.
Proof.
  intros Hd Hr'. unfold r_at. set (d := disc_at r2 p) in *.
  pose proof (sqrt_sqrt d Hd) as Hs. pose proof (sqrt_pos d) as Hp.
  assert (Hd' : d = (-2 * (R_sun * cos p)) * (-2 * (R_sun * cos p))
                    - 4 * quad_a * quad_c r2) by reflexivity.
  unfold quad_a in *.
  replace ((- (-2 * (R_sun * cos p)) + sqrt d) / 2 / 1)
    with (R_sun * cos p + sqrt d / 2) by field.
  destruct (Rle_lt_dec r' (R_sun * cos p + sqrt d / 2)) as [|Hlt]; [assumption|].
  exfalso.
  assert (Hsq : (2 * (r' - R_sun * cos p)) ^ 2 = d) by nra.
  assert (sqrt d < 2 * (r' - R_sun * cos p)) by lra.
  nra.
Qed.

(** A sample passes [r > r_1] exactly when its angle is a real, the
    discriminant is not negative and the root exceeds the solar radius. *)
Lemma above_surface_iff (r2 : R) (p : float) :
  above_surface (r_of r2 p, p) = true
  <-> exists x, p = Some x /\ 0 <= disc_at r2 x /\ R_sun < r_at r2 x.
Proof.
  unfold above_surface. simpl fst. rewrite fgt_true. split.
  - intros (r & y & Hr & Hy & Hlt). injection Hy as <-.
    apply r_of_some in Hr. destruct Hr as (x & -> & Hd & ->).
    exists x. auto.
  - intros (x & -> & Hd & Hlt). exists (r_at r2 x), R_sun.
    rewrite r_of_real. destruct (Rlt_dec (disc_at r2 x) 0); [lra|]. auto.
Qed.

Lemma retained_iff (r2 : R) (rp : float * float) :
  In rp (retained r2)
  <-> exists x, In (Some x) (phi r2) /\ rp = (Some (r_at r2 x), Some x) /\
                0 <= disc_at r2 x /\ R_sun < r_at r2 x.
Proof.
  unfold retained. rewrite filter_In, samples_map, in_map_iff. split.
  - intros ((p & <- & Hin) & Habove).
    apply above_surface_iff in Habove. destruct Habove as (x & -> & Hd & Hlt).
    exists x. rewrite r_of_real.
    destruct (Rlt_dec (disc_at r2 x) 0); [lra|]. auto.
  - intros (x & Hin & -> & Hd & Hlt).
    assert (E : r_of r2 (Some x) = Some (r_at r2 x)).
    { rewrite r_of_real. destruct (Rlt_dec (disc_at r2 x) 0); [lra|]. reflexivity. }
    split.
    + exists (Some x). rewrite E. auto.
    + rewrite <- E. apply above_surface_iff. exists x. auto.
Qed.

(** ** The returned coordinates *)

Definition loop_observer (theta0 : R) : Observer := mkObserver 0 theta0 R_sun.

Lemma semi_circular_loop_eq (len theta0 : R) :
  semi_circular_loop len theta0
  = match r_2 len with
    | Err e => Err e
    | Ok r2 =>
        match retained r2 with
        | [] => Err UnitsError
        | _ :: _ =>
            Ok (mkSkyCoord HeliographicStonyhurst
                  (map (fun rp => hcc_to_hgs (loop_observer theta0) (hcc_point rp))
                       (retained r2)))
        end
    end.
Proof.
  unfold semi_circular_loop, bind. destruct (r_2 len) as [r2|e]; [|reflexivity].
  rewrite heliocentric_loop_eq. destruct (retained r2) as [|rp l]; [reflexivity|].
  unfold transform_to_hgs. cbn [frame data]. rewrite map_map. reflexivity.
Qed.

(** Longitude, latitude (degrees) and radius of the point built from a
    sample of positive radial distance. *)
Definition hgs_lon (theta0 r p : R) : R :=
  rad2deg (arctan2 (r * sin p) (r * cos p * cos (deg2rad theta0))) + 0.

Definition hgs_lat (theta0 p : R) : R :=
  rad2deg (asin (cos p * sin (deg2rad theta0))).

Lemma hcc_point_real (r p : R) :
  hcc_point (Some r, Some p) = (Some (r * sin p), Some 0, Some (r * cos p)).
Proof. reflexivity. Qed.

Lemma hcc_to_hgs_sample (theta0 r p : R) :
  0 < r ->
  hcc_to_hgs (loop_observer theta0) (hcc_point (Some r, Some p))
  = (Some (hgs_lon theta0 r p), Some (hgs_lat theta0 p), Some r).
Proof.
  intros Hr. rewrite hcc_point_real. unfold hcc_to_hgs, loop_observer.
  cbn [obs_lat obs_lon fmul fadd fsub lift2 lift1 farctan2].
  set (cb := cos (deg2rad theta0)). set (sb := sin (deg2rad theta0)).
  assert (Hsq : r * sin p * (r * sin p) + 0 * 0 + r * cos p * (r * cos p) = r * r).
  { pose proof (sin2_cos2 p) as H. unfold Rsqr in H. nra. }
  rewrite Hsq. unfold fsqrt.
  destruct (Rlt_dec (r * r) 0) as [Hneg|_]; [nra|].
  rewrite sqrt_square by lra.
  unfold fdiv. destruct (Req_dec_T r 0) as [E|_]; [lra|].
  assert (Harg : (0 * cb + r * cos p * sb) / r = cos p * sb) by (field; lra).
  rewrite Harg. unfold farcsin.
  pose proof (COS_bound p) as Hc. pose proof (SIN_bound (deg2rad theta0)) as Hs.
  fold sb in Hs.
  destruct (Rle_dec (-1) (cos p * sb)) as [_|Hn]; [|exfalso; apply Hn; nra].
  destruct (Rle_dec (cos p * sb) 1) as [_|Hn]; [|exfalso; apply Hn; nra].
  unfold hgs_lon, hgs_lat. fold cb sb.
  replace (r * cos p * cb - 0 * sb) with (r * cos p * cb) by ring.
  reflexivity.
Qed.

(** Every point of the result comes from a retained sample: real angle,
    real radial distance above the solar radius. *)
Lemma result_points (len theta0 : R) (c : SkyCoord) :
  semi_circular_loop len theta0 = Ok c ->
  exists r2,
    r_2 len = Ok r2 /\ retained r2 <> [] /\
    frame c = HeliographicStonyhurst /\
    data c = map (fun rp => hcc_to_hgs (loop_observer theta0) (hcc_point rp))
                 (retained r2).
Proof.
  rewrite semi_circular_loop_eq. destruct (r_2 len) as [r2|e]; [|discriminate].
  destruct (retained r2) as [|rp l] eqn:E; [discriminate|].
  intros H. injection H as <-. exists r2. rewrite E.
  repeat split; try reflexivity. discriminate.
Qed.

Lemma result_point_inv (len theta0 : R) (c : SkyCoord) (pt : float * float * float) :
  semi_circular_loop len theta0 = Ok c -> In pt (data c) ->
  exists r2 x,
    r_2 len = Ok r2 /\ In (Some x) (phi r2) /\
    0 <= disc_at r2 x /\ R_sun < r_at r2 x /\
    pt = (Some (hgs_lon theta0 (r_at r2 x) x), Some (hgs_lat theta0 x),
          Some (r_at r2 x)).
Proof.
  intros Hrun Hin. destruct (result_points _ _ _ Hrun) as (r2 & Hr2 & _ & _ & Hdata).
  rewrite Hdata in Hin. apply in_map_iff in Hin. destruct Hin as (rp & <- & Hrp).
  apply retained_iff in Hrp. destruct Hrp as (x & Hx & -> & Hd & Hlt).
  exists r2, x. repeat split; try assumption.
  apply hcc_to_hgs_sample. pose proof R_sun_pos. lra.
Qed.

(** ** Which samples lie above the surface *)

Lemma sin2_cos2' (p : R) : sin p * sin p + cos p * cos p = 1.
Proof. pose proof (sin2_cos2 p) as H. unfold Rsqr in H. exact H. Qed.

Lemma r_at_eq (r2 p : R) : r_at r2 p = R_sun * cos p + sqrt (disc_at r2 p) / 2.
Proof. unfold r_at, quad_a. field. Qed.

(** A sample close enough to the apex is above the surface. *)
Lemma above_when_close (r2 p : R) :
  0 <= cos p -> 2 * (R_sun * sin p) ^ 2 < r2 ^ 2 ->
  0 <= disc_at r2 p /\ R_sun < r_at r2 p.
Proof.
  intros Hc Hclose. pose proof R_sun_pos as HR.
  pose proof (sin2_cos2' p) as Hsc. pose proof (COS_bound p) as Hcb.
  assert (Hd : disc_at r2 p = 4 * (r2 ^ 2 - R_sun ^ 2 * sin p ^ 2)) by apply disc_at_eq.
  assert (Hdpos : 0 <= disc_at r2 p) by nra.
  split; [assumption|].
  rewrite r_at_eq.
  set (t := 2 * R_sun * (1 - cos p)).
  assert (Ht : 0 <= t) by (unfold t; nra).
  assert (Hlt : t * t < disc_at r2 p).
  { rewrite Hd. unfold t.
    assert (1 - cos p <= sin p * sin p) by nra.
    nra. }
  assert (Hsq : sqrt (t * t) < sqrt (disc_at r2 p)).
  { apply sqrt_lt_1; nra. }
  rewrite sqrt_square in Hsq by assumption. unfold t in Hsq. lra.
Qed.

(** A sample above the surface is within the angle subtended by the
    circle of radius [r2]. *)
Lemma above_is_close (r2 p : R) :
  0 <= disc_at r2 p -> R_sun < r_at r2 p ->
  2 * R_sun ^ 2 * (1 - cos p) < r2 ^ 2.
Proof.
  intros Hd Hlt. pose proof R_sun_pos as HR. pose proof (COS_bound p) as Hcb.
  pose proof (r_at_root r2 p Hd) as Hroot. unfold quad_a, quad_c in Hroot.
  set (r := r_at r2 p) in *.
  assert (0 < (r - R_sun) ^ 2) by nra.
  assert (0 <= (r - R_sun) * (1 - cos p)) by nra.
  nra.
Qed.

Lemma INR_1999 : INR 1999 = 1999.
Proof. rewrite INR_IZR_INZ. reflexivity. Qed.

Lemma INR_1000 : INR 1000 = 1000.
Proof. rewrite INR_IZR_INZ. reflexivity. Qed.

Lemma phi_at_eq (al : R) (i : nat) :
  phi_at al i = (PI - al) * (2 * INR i - 1999) / 1999.
Proof.
  unfold phi_at. rewrite INR_1999. field.
Qed.

Lemma alpha_real (r2 : R) :
  -1 <= 0.5 * (r2 / R_sun) <= 1 ->
  alpha r2 = Some (acos (0.5 * (r2 / R_sun))).
Proof.
  intros [H1 H2]. unfold alpha, farccos.
  destruct (Rle_dec (-1) (0.5 * (r2 / R_sun))); [|contradiction].
  destruct (Rle_dec (0.5 * (r2 / R_sun)) 1); [|contradiction]. reflexivity.
Qed.

Lemma alpha_some (r2 al : R) :
  alpha r2 = Some al ->
  -1 <= 0.5 * (r2 / R_sun) <= 1 /\ al = acos (0.5 * (r2 / R_sun)).
Proof.
  unfold alpha, farccos.
  destruct (Rle_dec (-1) (0.5 * (r2 / R_sun))); [|discriminate].
  destruct (Rle_dec (0.5 * (r2 / R_sun)) 1); [|discriminate].
  intros E. injection E as <-. auto.
Qed.

Lemma half_ratio_range (r2 : R) :
  0 <= r2 <= 2 * R_sun -> 0 <= 0.5 * (r2 / R_sun) <= 1.
Proof.
  intros [H1 H2]. pose proof R_sun_pos as HR.
  assert (0 <= r2 / R_sun <= 2).
  { split; [apply Rdiv_ge_iff | apply Rdiv_le_iff]; lra. }
  lra.
Qed.

(** For a circle between 4000 km and the solar diameter the sample just
    past the apex is retained. *)
Lemma retained_nonempty (r2 : R) :
  4e8 <= r2 <= 2 * R_sun -> retained r2 <> [].
Proof.
  intros [Hlo Hhi]. pose proof R_sun_pos as HR. pose proof PI_bounds as [HP1 HP2].
  assert (Hu : 0 <= 0.5 * (r2 / R_sun) <= 1) by (apply half_ratio_range; lra).
  set (al := acos (0.5 * (r2 / R_sun))).
  assert (Hal : alpha r2 = Some al) by (apply alpha_real; lra).
  assert (Halr : 0 <= al <= PI / 2).
  { split; [apply acos_bound|].
    apply acos_le_iff; [lra|lra|]. rewrite cos_PI2. lra. }
  set (p := phi_at al 1000).
  assert (Hp : p = (PI - al) / 1999).
  { unfold p. rewrite phi_at_eq, INR_1000. field. }
  assert (Hpr : 0 < p <= 4 / 1999).
  { rewrite Hp. split; [apply Rdiv_gt_iff | apply Rdiv_le_iff]; lra. }
  assert (Hin : In (Some p) (phi r2)).
  { rewrite (phi_real r2 al Hal). apply in_map_iff. exists 1000%nat.
    split; [reflexivity|]. apply in_seq. lia. }
  assert (Hsin : 0 < sin p < p).
  { split; [apply sin_gt_0; lra | apply sin_lt_x; lra]. }
  assert (Hcos : 0 <= cos p) by (apply cos_ge_0; lra).
  destruct (above_when_close r2 p Hcos) as [Hd Hlt].
  { unfold R_sun in *. 
    assert (Hs : R_sun * sin p <= 1.4e8).
    { unfold R_sun. nra. }
    unfold R_sun in Hs. nra. }
  intros Hempty.
  assert (Hmem : In (Some (r_at r2 p), Some p) (retained r2)).
  { apply retained_iff. exists p. auto. }
  rewrite Hempty in Hmem. exact Hmem.
Qed.

(** ** Success of the call *)

Lemma loop_succeeds (len theta0 : R) :
  3.2e9 <= len <= 6 * R_sun ->
  exists r2 c,
    r_2 len = Ok r2 /\ len / (2 * PI) <= r2 <= len / PI /\
    retained r2 <> [] /\
    semi_circular_loop len theta0 = Ok c /\
    frame c = HeliographicStonyhurst /\
    data c = map (fun rp => hcc_to_hgs (loop_observer theta0) (hcc_point rp))
                 (retained r2).
Proof.
  intros [Hlo Hhi]. pose proof R_sun_pos as HR. pose proof PI_bounds as [HP1 HP2].
  destruct (r_2_near_root len) as (r2 & z & Hr2 & Hin & _); [lra|nra|].
  assert (Hlow : 4e8 <= len / (2 * PI)) by (apply Rdiv_ge_iff; lra).
  assert (Hup : len / PI <= 2 * R_sun) by (apply Rdiv_le_iff; [lra|nra]).
  assert (Hne : retained r2 <> []) by (apply retained_nonempty; lra).
  exists r2.
  exists (mkSkyCoord HeliographicStonyhurst
            (map (fun rp => hcc_to_hgs (loop_observer theta0) (hcc_point rp))
                 (retained r2))).
  split; [exact Hr2|]. split; [exact Hin|]. split; [exact Hne|].
  rewrite semi_circular_loop_eq, Hr2.
  destruct (retained r2) as [|rp l] eqn:E; [contradiction|].
  split; [reflexivity|]. split; reflexivity.
Qed.

(** * The claims *)

(** C1: for a length between 100 Mm and 2000 Mm (1e10 cm to 2e11 cm) and a
    latitude offset between -80 and 80 degrees, [semi_circular_loop] returns
    a non-empty sequence of points, each at a distance from the centre of
    the Sun that is a real number not below the solar radius. *)
Theorem C1_nonempty_above_surface (len theta0 : R) :
  1e10 <= len <= 2e11 -> -80 <= theta0 <= 80 ->
  exists c,
    semi_circular_loop len theta0 = Ok c /\
    data c <> [] /\
    forall lon lat rad,
      In (lon, lat, rad) (data c) -> exists d, rad = Some d /\ R_sun <= d.
Proof.
  intros Hlen Htheta.
  destruct (loop_succeeds len theta0) as (r2 & c & Hr2 & Hin & Hne & Hrun & Hfr & Hdata).
  { unfold R_sun. lra. }
  exists c. split; [assumption|]. split.
  - rewrite Hdata. intros Hmap. apply map_eq_nil in Hmap. contradiction.
  - intros lon lat rad Hpt.
    destruct (result_point_inv _ _ _ _ Hrun Hpt) as (r2' & x & _ & _ & _ & Hlt & E).
    injection E as _ _ ->. exists (r_at r2' x). split; [reflexivity|lra].
Qed.

Lemma C1_witness :
  exists c,
    semi_circular_loop 5e10 30 = Ok c /\
    data c <> [] /\
    forall lon lat rad,
      In (lon, lat, rad) (data c) -> exists d, rad = Some d /\ R_sun <= d.
Proof.
  apply C1_nonempty_above_surface; lra.
Defined.


(** C2: the circle radius is the result of bisecting
    [arccos(0.5 x / r1) - pi + length / (2 x)] over
    [length / (2 pi), length / pi]; for a positive length below
    [4 pi r1] (where the equation is defined at the left end) the root
    finder returns a value of the bracket that is within its tolerance
    [xtol + rtol |r2|] of an exact zero of the equation. *)
Theorem C2_bisection_root (len : R) :
  0 < len -> len < 4 * PI * R_sun ->
  r_2 len = bisect (r_2_func len) (len / (2 * PI)) (len / PI) /\
  (forall x, x <> 0 -> -1 <= 0.5 * x / R_sun <= 1 ->
             r_2_func len x = Some (acos (0.5 * x / R_sun) - PI + len / (2 * x))) /\
  exists r2 z,
    r_2 len = Ok r2 /\
    (forall theta0,
        semi_circular_loop len theta0
        = (c <- heliocentric_loop r2 theta0 ;; Ok (transform_to_hgs c))) /\
    len / (2 * PI) <= r2 <= len / PI /\
    len / (2 * PI) <= z <= len / PI /\
    r_2_func len z = Some 0 /\
    Rabs (r2 - z) < xtol + rtol * Rabs r2.
Proof.
  intros Hpos Hsmall. split; [reflexivity|]. split.
  - intros x Hx Hu. rewrite r_2_func_real by assumption. unfold root_eq.
    f_equal. f_equal. field. assumption.
  - destruct (r_2_near_root len Hpos Hsmall)
      as (r2 & z & Hr2 & Hin & Hz & Hz2 & Hroot & Htol).
    exists r2, z. split; [assumption|]. split.
    { intros theta0. unfold semi_circular_loop. rewrite Hr2. reflexivity. }
    split; [assumption|]. split; [assumption|]. split; [|assumption].
    pose proof (bracket_pos len Hpos) as [Ha Hab]. pose proof R_sun_pos as HR.
    rewrite r_2_func_real, Hroot; [reflexivity|lra|].
    split; [apply Rdiv_ge_iff | apply Rdiv_le_iff]; lra.
Qed.

Lemma C2_witness :
  exists r2 z,
    r_2 5e10 = Ok r2 /\
    5e10 / (2 * PI) <= r2 <= 5e10 / PI /\
    r_2_func 5e10 z = Some 0 /\
    Rabs (r2 - z) < xtol + rtol * Rabs r2.
Proof.
  destruct (C2_bisection_root 5e10) as (_ & _ & r2 & z & H1 & _ & H2 & _ & H3 & H4).
  - lra.
  - pose proof PI_bounds. unfold R_sun. lra.
  - exists r2, z. auto.
Defined.

(** C3: for a sampled angle [p] the radial distance is NaN when the
    discriminant is negative and otherwise
    [(-b + sqrt (b^2 - 4ac)) / (2a)] with [a = 1], [b = -2 r1 cos p],
    [c = r1^2 - r2^2]: a root of [r^2 - 2 r1 cos p r + (r1^2 - r2^2)],
    and the larger of its roots (the one with the positive square root). *)
Theorem C3_quadratic_root (r2 p : R) :
  In (Some p) (phi r2) ->
  let a := 1 in
  let b := -2 * R_sun * cos p in
  let c := R_sun ^ 2 - r2 ^ 2 in
  let r := (- b + sqrt (b ^ 2 - 4 * a * c)) / (2 * a) in
  In (r_of r2 (Some p), Some p) (samples r2) /\
  (b ^ 2 - 4 * a * c < 0 -> r_of r2 (Some p) = NaN) /\
  (0 <= b ^ 2 - 4 * a * c ->
   r_of r2 (Some p) = Some r /\
   r ^ 2 - 2 * R_sun * cos p * r + (R_sun ^ 2 - r2 ^ 2) = 0 /\
   forall r', r' ^ 2 - 2 * R_sun * cos p * r' + (R_sun ^ 2 - r2 ^ 2) = 0 -> r' <= r).
Proof.
  intros Hin a b c r.
  assert (Hd : b ^ 2 - 4 * a * c = disc_at r2 p).
  { unfold a, b, c, disc_at, quad_a, quad_c. ring. }
  assert (Hr : r = r_at r2 p).
  { unfold r. rewrite Hd. unfold r_at, a, b, quad_a. field. }
  split; [|split].
  - rewrite samples_map. apply in_map_iff. exists (Some p). auto.
  - rewrite Hd, r_of_real. intros Hneg.
    destruct (Rlt_dec (disc_at r2 p) 0); [reflexivity|contradiction].
  - rewrite Hd, Hr. intros Hpos. split; [|split].
    + rewrite r_of_real. destruct (Rlt_dec (disc_at r2 p) 0); [lra|reflexivity].
    + pose proof (r_at_root r2 p Hpos) as H. unfold quad_a, quad_c in H. lra.
    + intros r' Hr'. apply r_at_largest; [assumption|].
      unfold quad_a, quad_c. lra.
Qed.

Lemma C3_witness :
  let p := phi_at (acos (0.5 * (R_sun / R_sun))) 1000 in
  In (Some p) (phi R_sun) /\
  In (r_of R_sun (Some p), Some p) (samples R_sun).
Proof.
  intros p.
  assert (Hin : In (Some p) (phi R_sun)).
  { rewrite (phi_real R_sun (acos (0.5 * (R_sun / R_sun)))).
    - apply in_map_iff. exists 1000%nat. split; [reflexivity|]. apply in_seq. lia.
    - apply alpha_real. pose proof R_sun_pos.
      replace (R_sun / R_sun) with 1 by (field; lra). lra. }
  split; [exact Hin|].
  exact (proj1 (C3_quadratic_root R_sun p Hin)).
Defined.

Lemma nth_map_seq {A : Type} (f : nat -> A) (n i : nat) (d : A) :
  (i < n)%nat -> nth i (map f (seq 0 n)) d = f i.
Proof.
  intros Hi.
  rewrite (nth_indep _ d (f 0%nat)) by (rewrite length_map, length_seq; assumption).
  rewrite (map_nth f (seq 0 n) 0%nat i), seq_nth by assumption. reflexivity.
Qed.

Lemma phi_at_range (al : R) (i : nat) :
  al <= PI -> (i < 2000)%nat -> - PI + al <= phi_at al i <= PI - al.
Proof.
  intros Hal Hi. rewrite phi_at_eq.
  assert (Hi' : 0 <= INR i <= 1999).
  { split; [apply pos_INR|]. rewrite <- INR_1999. apply le_INR. lia. }
  split.
  - apply Rdiv_ge_iff; [lra|]. nra.
  - apply Rdiv_le_iff; [lra|]. nra.
Qed.

Lemma retained_length_le (r2 : R) : (List.length (retained r2) <= 2000)%nat.
Proof.
  unfold retained. eapply Nat.le_trans; [apply filter_length_le|].
  rewrite samples_map, length_map, phi_length. lia.
Qed.

(** C4: the half-angle is [arccos(0.5 r2 / r1)]; when it is a real [al]
    the angles are exactly 2000 values, the [i]-th being
    [(-pi + al) + i * step] with [step = ((pi - al) - (-pi + al)) / 1999], from
    [-pi + al] (first) to [pi - al] (last), all inside that closed interval;
    the returned sequence holds one point per sample kept by the filter, so
    at most 2000. *)
Theorem C4_sampling (len theta0 r2 : R) :
  r_2 len = Ok r2 ->
  alpha r2 = farccos (Some (0.5 * (r2 / R_sun))) /\
  List.length (phi r2) = 2000%nat /\
  (forall al, alpha r2 = Some al ->
     al = acos (0.5 * (r2 / R_sun)) /\
     phi r2 = map (fun i => Some (INR i * ((PI - al - (- PI + al)) / 1999) + (- PI + al)))
                  (seq 0 2000) /\
     nth 0 (phi r2) NaN = Some (- PI + al) /\
     nth 1999 (phi r2) NaN = Some (PI - al) /\
     forall i, (i < 2000)%nat ->
       exists x, nth i (phi r2) NaN = Some x /\ - PI + al <= x <= PI - al) /\
  (forall c, semi_circular_loop len theta0 = Ok c ->
     shape c = List.length (filter above_surface (samples r2)) /\
     List.length (samples r2) = 2000%nat /\
     (shape c <= 2000)%nat).
Proof.
  intros Hr2. split; [reflexivity|]. split; [apply phi_length|]. split.
  - intros al Hal. pose proof (alpha_some _ _ Hal) as [Hu Hdef].
    assert (Hle : al <= PI) by (rewrite Hdef; apply acos_bound).
    assert (Hphi : phi r2 = map (fun i => Some (phi_at al i)) (seq 0 2000))
      by (apply phi_real; assumption).
    assert (Hnth : forall i, (i < 2000)%nat -> nth i (phi r2) NaN = Some (phi_at al i)).
    { intros i Hi. rewrite Hphi.
      apply (nth_map_seq (fun i => Some (phi_at al i))). assumption. }
    split; [assumption|]. split; [|split; [|split]].
    + rewrite Hphi.
      apply (map_ext (fun i => Some (phi_at al i))
                     (fun i => Some (INR i * ((PI - al - (- PI + al)) / 1999) + (- PI + al)))).
      intros i. unfold phi_at. rewrite INR_1999. reflexivity.
    + rewrite Hnth by lia. f_equal. rewrite phi_at_eq. simpl INR. field.
    + rewrite Hnth by lia. f_equal. rewrite phi_at_eq, INR_1999. field.
    + intros i Hi. exists (phi_at al i). split; [apply Hnth; assumption|].
      apply phi_at_range; assumption.
  - intros c Hrun.
    destruct (result_points _ _ _ Hrun) as (r2' & Hr2' & _ & _ & Hdata).
    rewrite Hr2 in Hr2'. injection Hr2' as <-.
    unfold shape. rewrite Hdata, length_map.
    split; [unfold retained; reflexivity|]. split.
    + rewrite samples_map, length_map. apply phi_length.
    + apply retained_length_le.
Qed.

Lemma C4_witness :
  exists r2 c,
    r_2 5e10 = Ok r2 /\ semi_circular_loop 5e10 30 = Ok c /\
    List.length (phi r2) = 2000%nat /\ (shape c <= 2000)%nat.
Proof.
  destruct (loop_succeeds 5e10 30) as (r2 & c & Hr2 & _ & _ & Hrun & _).
  { unfold R_sun. lra. }
  exists r2, c. split; [exact Hr2|]. split; [exact Hrun|].
  destruct (C4_sampling 5e10 30 r2 Hr2) as (_ & Hlen & _ & Hshape).
  split; [exact Hlen|]. exact (proj2 (proj2 (Hshape c Hrun))).
Defined.

Lemma bind_ok {A B : Type} (m : result A) (k : A -> result B) (b : B) :
  bind m k = Ok b -> exists a, m = Ok a /\ k a = Ok b.
Proof.
  destruct m as [a|e]; [|discriminate]. intros H. exists a. auto.
Qed.

Lemma heliocentric_loop_ok (r2 theta0 : R) (hcc : SkyCoord) :
  heliocentric_loop r2 theta0 = Ok hcc ->
  hcc = mkSkyCoord (Heliocentric (mkObserver 0 theta0 R_sun))
                   (map hcc_point (retained r2)) /\
  retained r2 <> [].
Proof.
  rewrite heliocentric_loop_eq. generalize (retained r2). intros l.
  destruct l as [|rp l]; [discriminate|].
  intros H. injection H as <-. split; [reflexivity|discriminate].
Qed.



(** ** Negative discriminants *)

Lemma first_angle (al : R) : phi_at al 0 = al - PI.
Proof. rewrite phi_at_eq. simpl INR. field. Qed.

(** The first sampled angle of a circle smaller than 0.89 solar radii has
    a negative discriminant. *)
Lemma first_sample_negative (r2 : R) :
  0 <= r2 -> 5 * r2 ^ 2 < 4 * R_sun ^ 2 ->
  exists p, In (Some p) (phi r2) /\ disc_at r2 p < 0.
Proof.
  intros Hpos Hsmall. pose proof R_sun_pos as HR.
  assert (Hr2 : r2 <= 2 * R_sun) by nra.
  pose proof (half_ratio_range r2 (conj Hpos Hr2)) as Hu.
  assert (Hal : alpha r2 = Some (acos (0.5 * (r2 / R_sun))))
    by (apply alpha_real; lra).
  set (u := 0.5 * (r2 / R_sun)) in *.
  exists (phi_at (acos u) 0). split.
  - rewrite (phi_real r2 _ Hal). apply in_map_iff. exists 0%nat.
    split; [reflexivity|]. apply in_seq. lia.
  - rewrite disc_at_eq, first_angle.
    assert (Hsin : sin (acos u - PI) = - sin (acos u)).
    { rewrite sin_minus, cos_PI, sin_PI. ring. }
    rewrite Hsin.
    pose proof (sin2_cos2' (acos u)) as Hsc. rewrite cos_acos in Hsc by lra.
    assert (Hur : u * R_sun = 0.5 * r2) by (unfold u; field; lra).
    assert (Hs2 : R_sun ^ 2 * (- sin (acos u)) ^ 2 = R_sun ^ 2 - (0.5 * r2) ^ 2).
    { rewrite <- Hur.
      replace ((- sin (acos u)) ^ 2) with (1 - u * u) by (simpl; nra). ring. }
    rewrite Hs2. nra.
Qed.

(** C10: the discriminant is [4 (r2^2 - r1^2 sin^2 p)]; it is negative for
    some sampled angle of an ordinary call; such a sample has a NaN square
    root and a NaN radial distance, fails [r > r_1] and is not in the
    output; every radius of a returned point is a real number strictly
    greater than the solar radius. *)
Theorem C10_nan_excluded_strictly_above :
  (forall r2 p,
      discriminant r2 (Some p) = Some (4 * (r2 ^ 2 - R_sun ^ 2 * sin p ^ 2))) /\
  (exists r2 p d,
      r_2 5e10 = Ok r2 /\ In (Some p) (phi r2) /\
      discriminant r2 (Some p) = Some d /\ d < 0) /\
  (forall r2 p,
      In (Some p) (phi r2) -> 4 * (r2 ^ 2 - R_sun ^ 2 * sin p ^ 2) < 0 ->
      fsqrt (discriminant r2 (Some p)) = NaN /\
      r_of r2 (Some p) = NaN /\
      above_surface (r_of r2 (Some p), Some p) = false /\
      forall r, ~ In (r, Some p) (retained r2)) /\
  (forall len theta0 c lon lat rad,
      semi_circular_loop len theta0 = Ok c -> In (lon, lat, rad) (data c) ->
      exists d, rad = Some d /\ R_sun < d).
Proof.
  split; [|split; [|split]].
  - intros r2 p. rewrite discriminant_real, disc_at_eq. reflexivity.
  - destruct (r_2_near_root 5e10) as (r2 & z & Hr2 & Hin & _).
    { lra. }
    { pose proof PI_bounds. unfold R_sun. lra. }
    pose proof PI_bounds as [HP1 HP2].
    assert (Hlo : 0 < r2).
    { destruct Hin as [Hlo _]. eapply Rlt_le_trans; [|exact Hlo].
      apply Rdiv_lt_0_compat; lra. }
    assert (Hhi : r2 <= 2e10).
    { destruct Hin as [_ Hhi]. eapply Rle_trans; [exact Hhi|].
      apply Rdiv_le_iff; lra. }
    destruct (first_sample_negative r2) as (p & Hp & Hd).
    { lra. }
    { unfold R_sun. nra. }
    exists r2, p, (disc_at r2 p). auto using discriminant_real.
  - intros r2 p Hin Hneg. rewrite <- disc_at_eq in Hneg.
    assert (Hr : r_of r2 (Some p) = NaN).
    { rewrite r_of_real. destruct (Rlt_dec (disc_at r2 p) 0); [reflexivity|contradiction]. }
    split; [|split; [|split]].
    + rewrite discriminant_real. unfold fsqrt.
      destruct (Rlt_dec (disc_at r2 p) 0); [reflexivity|contradiction].
    + exact Hr.
    + rewrite Hr. reflexivity.
    + intros r Hmem. apply retained_iff in Hmem.
      destruct Hmem as (x & _ & E & Hd & _). injection E as _ <-. lra.
  - intros len theta0 c lon lat rad Hrun Hpt.
    destruct (result_point_inv _ _ _ _ Hrun Hpt) as (r2 & x & _ & _ & _ & Hlt & E).
    injection E as _ _ ->. exists (r_at r2 x). auto.
Qed.

(** ** Mirror symmetry of the samples *)

Lemma rev_seq_0 (n : nat) :
  rev (seq 0 n) = map (fun i => (n - 1 - i)%nat) (seq 0 n).
Proof.
  induction n as [|n IH].
  - reflexivity.
  - rewrite seq_S at 1. rewrite rev_app_distr. simpl rev. simpl app.
    rewrite IH. simpl seq. simpl map. f_equal; [lia|].
    rewrite <- seq_shift, map_map. apply map_ext_in.
    intros i _. lia.
Qed.

Lemma phi_at_mirror (al : R) (i : nat) :
  (i < 2000)%nat -> phi_at al (2000 - 1 - i) = - phi_at al i.
Proof.
  intros Hi. rewrite !phi_at_eq.
  replace (2000 - 1 - i)%nat with (1999 - i)%nat by lia.
  rewrite minus_INR by lia. rewrite INR_1999. field.
Qed.

(** The angles read backwards are the angles negated. *)
Lemma phi_rev (r2 : R) : rev (phi r2) = map fneg (phi r2).
Proof.
  destruct (alpha r2) as [al|] eqn:Hal.
  - rewrite (phi_real r2 al Hal).
    rewrite <- map_rev, rev_seq_0, !map_map.
    apply map_ext_in. intros i Hi. apply in_seq in Hi.
    cbn [fneg lift1]. f_equal. apply phi_at_mirror. lia.
  - rewrite (phi_nan r2 Hal), rev_repeat, map_repeat. reflexivity.
Qed.

Lemma r_of_mirror (r2 : R) (p : float) : r_of r2 (fneg p) = r_of r2 p.
Proof.
  destruct p as [x|]; [|reflexivity].
  cbn [fneg lift1]. rewrite !r_of_real.
  unfold disc_at, r_at, disc_at. rewrite !cos_neg. reflexivity.
Qed.

Lemma samples_rev (r2 : R) :
  rev (samples r2) = map mirror (samples r2).
Proof.
  rewrite samples_map, <- map_rev, phi_rev, !map_map.
  apply map_ext. intros p. unfold mirror. cbn [fst snd].
  rewrite r_of_mirror. reflexivity.
Qed.

Lemma retained_rev (r2 : R) :
  rev (retained r2) = map mirror (retained r2).
Proof.
  unfold retained. rewrite <- filter_rev, samples_rev, filter_map_swap.
  f_equal.
Qed.

Lemma last_of_mirrored {A : Type} (m : A -> A) (a d : A) (l : list A) :
  rev (a :: l) = map m (a :: l) -> last (a :: l) d = m a.
Proof.
  intros H.
  assert (E : a :: l = rev (map m l) ++ [m a]).
  { rewrite <- (rev_involutive (a :: l)), H. reflexivity. }
  rewrite E. apply last_last.
Qed.

Lemma last_map {A B : Type} (g : A -> B) (l : list A) (d : A) :
  last (map g l) (g d) = g (last l d).
Proof.
  induction l as [|a l IH]; [reflexivity|].
  destruct l as [|b l]; [reflexivity|].
  change (last (map g (a :: b :: l)) (g d)) with (last (map g (b :: l)) (g d)).
  rewrite IH. reflexivity.
Qed.

(** ** The root finder stays inside its bracket *)

Lemma bisect_loop_range (f : R -> float) (fa : float) (iter : nat) :
  forall xa dm xm,
    0 <= dm -> bisect_loop f fa iter xa dm = Ok xm -> xa <= xm <= xa + dm.
Proof.
  induction iter as [|iter IH]; intros xa dm xm Hdm Hrun; [discriminate|].
  simpl in Hrun.
  destruct (feq (f (xa + dm * 0.5)) (Some 0)
            || Rltb (Rabs (dm * 0.5)) (xtol + rtol * Rabs (xa + dm * 0.5))).
  - injection Hrun as <-. lra.
  - apply IH in Hrun; [|lra].
    destruct (fge (fmul (f (xa + dm * 0.5)) fa) (Some 0)); lra.
Qed.

Lemma bisect_range (f : R -> float) (xa xb x : R) :
  xa <= xb -> bisect f xa xb = Ok x -> xa <= x <= xb.
Proof.
  intros Hle. unfold bisect.
  destruct (fgt (fmul (f xa) (f xb)) (Some 0)); [discriminate|].
  destruct (feq (f xa) (Some 0)); [intros E; injection E as <-; lra|].
  destruct (feq (f xb) (Some 0)); [intros E; injection E as <-; lra|].
  intros Hrun. apply bisect_loop_range in Hrun; lra.
Qed.

Lemma r_2_range (len r2 : R) :
  0 < len -> r_2 len = Ok r2 -> len / (2 * PI) <= r2 <= len / PI.
Proof.
  intros Hpos Hrun. pose proof (bracket_pos len Hpos) as [Ha Hab].
  apply (bisect_range (r_2_func len)); [lra|exact Hrun].
Qed.

(** ** Longitude and latitude of mirrored samples *)

Lemma arctan2_odd (y x : R) : y <> 0 -> arctan2 (- y) x = - arctan2 y x.
Proof.
  intros Hy. unfold arctan2.
  replace (- y / x) with (- (y / x)) by (unfold Rdiv; ring).
  rewrite atan_opp.
  destruct (Rlt_dec 0 x); [reflexivity|].
  destruct (Rlt_dec x 0).
  - destruct (Rle_dec 0 (- y)), (Rle_dec 0 y); try lra.
  - destruct (Rlt_dec 0 (- y)), (Rlt_dec 0 y), (Rlt_dec (- y) 0), (Rlt_dec y 0); lra.
Qed.

Lemma hgs_lon_mirror (theta0 r p : R) :
  r * sin p <> 0 -> hgs_lon theta0 r (- p) = - hgs_lon theta0 r p.
Proof.
  intros Hy. unfold hgs_lon. rewrite sin_neg, cos_neg.
  replace (r * - sin p) with (- (r * sin p)) by ring.
  rewrite arctan2_odd by assumption. unfold rad2deg. field.
  pose proof PI_bounds. lra.
Qed.

Lemma hgs_lat_mirror (theta0 p : R) : hgs_lat theta0 (- p) = hgs_lat theta0 p.
Proof. unfold hgs_lat. rewrite cos_neg. reflexivity. Qed.

(** A retained angle of a circle of non-negative radius is not a multiple
    of [pi]. *)
Lemma retained_angle_sin (r2 x : R) :
  0 <= r2 -> In (Some x) (phi r2) ->
  0 <= disc_at r2 x -> R_sun < r_at r2 x -> sin x <> 0.
Proof.
  intros Hr2 Hin Hd Hlt. pose proof R_sun_pos as HR. pose proof PI_bounds as [HP1 HP2].
  destruct (alpha r2) as [al|] eqn:Hal.
  2:{ rewrite (phi_nan r2 Hal) in Hin. apply repeat_spec in Hin. discriminate. }
  pose proof (alpha_some _ _ Hal) as [Hu Hdef].
  assert (Hu0 : 0 <= 0.5 * (r2 / R_sun)).
  { assert (0 <= r2 / R_sun) by (apply Rdiv_ge_iff; lra). lra. }
  assert (Halr : 0 <= al <= PI / 2).
  { rewrite Hdef. split; [apply acos_bound|].
    apply acos_le_iff; [lra|lra|]. rewrite cos_PI2. lra. }
  rewrite (phi_real r2 al Hal) in Hin. apply in_map_iff in Hin.
  destruct Hin as (i & E & Hi). injection E as <-. apply in_seq in Hi.
  pose proof (phi_at_range al i ltac:(lra) ltac:(lia)) as Hrange.
  assert (Hnz : phi_at al i <> 0).
  { rewrite phi_at_eq. intros Hz.
    assert (Hprod : (PI - al) * (2 * INR i - 1999) = 0).
    { replace ((PI - al) * (2 * INR i - 1999))
        with ((PI - al) * (2 * INR i - 1999) / 1999 * 1999) by field.
      rewrite Hz. ring. }
    apply Rmult_integral in Hprod. destruct Hprod as [Hp|Hp]; [lra|].
    assert (Hodd : (2 * Z.of_nat i)%Z = 1999%Z).
    { apply eq_IZR. rewrite mult_IZR, <- INR_IZR_INZ. lra. }
    lia. }
  assert (Hcos : -1 < cos (phi_at al i)).
  { pose proof (above_is_close r2 _ Hd Hlt) as Hclose.
    assert (Hr2' : r2 <= 2 * R_sun).
    { destruct Hu as [_ Hu]. assert (r2 / R_sun <= 2) by lra.
      apply Rdiv_le_iff in H; lra. }
    assert (r2 ^ 2 <= 4 * R_sun ^ 2) by nra.
    nra. }
  set (q := phi_at al i) in *.
  destruct (Rlt_le_dec 0 q) as [Hpos|Hneg].
  - destruct (Rlt_le_dec q PI) as [Hlt'|Hge].
    + pose proof (sin_gt_0 q Hpos Hlt'). lra.
    + assert (q = PI) by lra. subst q. rewrite H in Hcos. rewrite cos_PI in Hcos. lra.
  - destruct (Rlt_le_dec (- PI) q) as [Hlt'|Hge].
    + pose proof (sin_lt_0_var q Hlt' ltac:(lra)). lra.
    + assert (Hq : q = - PI) by lra. rewrite Hq, cos_neg, cos_PI in Hcos. lra.
Qed.

(** First and last retained samples are mirror images. *)
Lemma retained_ends (r2 : R) (rp : float * float) (l : list (float * float)) :
  0 <= r2 -> retained r2 = rp :: l ->
  exists r p,
    rp = (Some r, Some (- p)) /\ last (retained r2) rp = (Some r, Some p) /\
    R_sun < r /\ sin p <> 0.
Proof.
  intros Hr2 E.
  assert (Hin : In rp (retained r2)) by (rewrite E; left; reflexivity).
  apply retained_iff in Hin. destruct Hin as (x & Hx & -> & Hd & Hlt).
  exists (r_at r2 x), (- x). rewrite Ropp_involutive.
  split; [reflexivity|]. split; [|split; [assumption|]].
  - rewrite E. rewrite (last_of_mirrored mirror); [reflexivity|].
    rewrite <- E. apply retained_rev.
  - rewrite sin_neg. pose proof (retained_angle_sin r2 x Hr2 Hx Hd Hlt). lra.
Qed.

Lemma retained_ends_nonempty (r2 : R) :
  0 <= r2 -> retained r2 <> [] ->
  exists r p l,
    retained r2 = (Some r, Some (- p)) :: l /\
    last ((Some r, Some (- p)) :: l) (Some r, Some (- p)) = (Some r, Some p) /\
    R_sun < r /\ sin p <> 0.
Proof.
  intros Hr2 Hne.
  assert (Hex : exists rp l, retained r2 = rp :: l).
  { generalize Hne. generalize (retained r2). intros l0 Hl0.
    destruct l0 as [|rp l]; [contradiction|]. exists rp, l. reflexivity. }
  destruct Hex as (rp & l & E).
  destruct (retained_ends r2 rp l Hr2 E) as (r & p & Erp & Hlast & Hlt & Hsin).
  exists r, p, l. rewrite E in Hlast. rewrite Erp in E, Hlast. auto.
Qed.

Lemma some_pair_inv {A B : Type} (a a' : A) (b b' : B) :
  Some (a, b) = Some (a', b') -> a = a' /\ b = b'.
Proof. intros H. injection H as -> ->. auto. Qed.

Lemma first_last_data (c : SkyCoord) {A : Type}
      (g : A -> float * float * float) (a : A) (l : list A) :
  data c = map g (a :: l) ->
  first_last c = Some (g a, g (last (a :: l) a)).
Proof.
  intros Hdata. unfold first_last. rewrite Hdata. rewrite <- (last_map g).
  reflexivity.
Qed.

(** C6, as amended: for a positive length, the first and the last returned
    point come from samples at opposite angles [-p] and [p] with the same
    radial distance; their heliocentric x are opposite and their z equal;
    their longitudes (offsets from the anchor longitude 0) are opposite,
    while their latitudes and radii are equal, so the latitude offsets from
    the anchor are equal, not opposite. *)
Theorem C6_endpoints_mirrored (len theta0 : R) (c : SkyCoord)
        (pf pl : float * float * float) :
  0 < len ->
  semi_circular_loop len theta0 = Ok c ->
  first_last c = Some (pf, pl) ->
  exists r2 r p,
    r_2 len = Ok r2 /\ R_sun < r /\ sin p <> 0 /\
    hd_error (retained r2) = Some (Some r, Some (- p)) /\
    last (retained r2) (Some r, Some (- p)) = (Some r, Some p) /\
    hcc_point (Some r, Some (- p)) = (Some (- (r * sin p)), Some 0, Some (r * cos p)) /\
    hcc_point (Some r, Some p) = (Some (r * sin p), Some 0, Some (r * cos p)) /\
    pf = (Some (- hgs_lon theta0 r p), Some (hgs_lat theta0 p), Some r) /\
    pl = (Some (hgs_lon theta0 r p), Some (hgs_lat theta0 p), Some r).
Proof.
  intros Hpos Hrun Hfl. pose proof R_sun_pos as HR.
  destruct (result_points _ _ _ Hrun) as (r2 & Hr2 & Hne & _ & Hdata).
  pose proof (r_2_range len r2 Hpos Hr2) as [Hlo _].
  pose proof (bracket_pos len Hpos) as [Ha _].
  destruct (retained_ends_nonempty r2 ltac:(lra) Hne)
    as (r & p & l & E & Hlast & Hlt & Hsin).
  exists r2, r, p. split; [assumption|]. split; [assumption|]. split; [assumption|].
  rewrite E. split; [reflexivity|]. split; [exact Hlast|].
  split; [rewrite hcc_point_real, sin_neg, cos_neg; f_equal; f_equal; f_equal; ring|].
  split; [apply hcc_point_real|].
  rewrite E in Hdata.
  rewrite (first_last_data c _ _ _ Hdata) in Hfl.
  apply some_pair_inv in Hfl. destruct Hfl as [Hpf Hpl].
  assert (Hy : r * sin p <> 0)
    by (apply Rmult_integral_contrapositive; split; lra).
  split.
  - rewrite <- Hpf, <- (hgs_lon_mirror theta0 r p Hy), <- (hgs_lat_mirror theta0 p).
    apply hcc_to_hgs_sample. lra.
  - rewrite <- Hpl.
    transitivity (hcc_to_hgs (loop_observer theta0) (hcc_point (Some r, Some p))).
    + apply f_equal, f_equal. exact Hlast.
    + apply hcc_to_hgs_sample. lra.
Qed.

Lemma C6_witness :
  exists c pf pl lon lat r,
    semi_circular_loop 5e10 30 = Ok c /\ first_last c = Some (pf, pl) /\
    pf = (Some (- lon), Some lat, Some r) /\ pl = (Some lon, Some lat, Some r).
Proof.
  destruct (loop_succeeds 5e10 30) as (r2 & c & _ & _ & Hne & Hrun & _ & Hdata).
  { unfold R_sun. lra. }
  destruct (first_last c) as [[pf pl]|] eqn:Hfl.
  - destruct (C6_endpoints_mirrored 5e10 30 c pf pl ltac:(lra) Hrun Hfl)
      as (r2' & r & p & _ & _ & _ & _ & _ & _ & _ & Hpf & Hpl).
    exists c, pf, pl, (hgs_lon 30 r p), (hgs_lat 30 p), r. auto.
  - exfalso. unfold first_last in Hfl. rewrite Hdata in Hfl.
    destruct (retained r2); [contradiction|discriminate].
Defined.

(** C6 as stated fails for the loop of the script (500 Mm, 30 degrees): both
    end points have the same latitude, which is not the anchor latitude. *)
Lemma C6_counterexample : ~ C6_as_stated 5e10 30.
Proof.
  intros Hclaim. pose proof PI_bounds as [HP1 HP2].
  destruct (loop_succeeds 5e10 30) as (r2 & c & _ & _ & Hne & Hrun & _ & Hdata).
  { unfold R_sun. lra. }
  destruct (first_last c) as [[pf pl]|] eqn:Hfl.
  2:{ unfold first_last in Hfl. rewrite Hdata in Hfl.
      destruct (retained r2); [contradiction|discriminate]. }
  destruct (C6_endpoints_mirrored 5e10 30 c pf pl ltac:(lra) Hrun Hfl)
    as (r2' & r & p & _ & _ & Hsin & _ & _ & _ & _ & -> & ->).
  destruct (Hclaim c _ _ _ _ _ _ Hrun Hfl) as [_ Hlat].
  assert (Hlat30 : hgs_lat 30 p = 30) by lra.
  unfold hgs_lat, rad2deg in Hlat30.
  assert (Hdeg : deg2rad 30 = PI / 6) by (unfold deg2rad; field).
  rewrite Hdeg, sin_PI6 in Hlat30.
  assert (Hasin : asin (cos p * (1 / 2)) = PI / 6).
  { replace (asin (cos p * (1 / 2)))
      with (asin (cos p * (1 / 2)) * 180 / PI * (PI / 180)) by (field; lra).
    rewrite Hlat30. field. }
  pose proof (COS_bound p) as Hc.
  assert (Hs : sin (asin (cos p * (1 / 2))) = cos p * (1 / 2))
    by (apply sin_asin; lra).
  rewrite Hasin, sin_PI6 in Hs.
  assert (Hcos : cos p = 1) by lra.
  pose proof (sin2_cos2' p) as Hsc. rewrite Hcos in Hsc.
  assert (sin p * sin p = 0) by lra.
  apply Rmult_integral in H. destruct H; contradiction.
Qed.

(** ** A loop too short for the sampling *)

Lemma sin_half_lower (x : R) : 0 <= x <= 1 -> x / 2 <= sin x.
Proof.
  intros [H0 H1].
  assert (Hpi : x <= PI) by (pose proof PI2_3_2; lra).
  destruct (SIN x H0 Hpi) as [Hlb _].
  eapply Rle_trans; [|exact Hlb].
  unfold sin_lb, sin_approx. cbn [sum_f_R0]. unfold sin_term.
  replace (INR (fact (2 * 0 + 1))) with 1 by (rewrite INR_IZR_INZ; reflexivity).
  replace (INR (fact (2 * 1 + 1))) with 6 by (rewrite INR_IZR_INZ; reflexivity).
  replace (INR (fact (2 * 2 + 1))) with 120 by (rewrite INR_IZR_INZ; reflexivity).
  replace (INR (fact (2 * 3 + 1))) with 5040 by (rewrite INR_IZR_INZ; reflexivity).
  cbn [pow Nat.mul Nat.add].
  assert (Hx2 : 0 <= x * x <= 1) by nra.
  assert (Hx3 : 0 <= x * (x * x) <= x) by nra.
  assert (Hx5 : 0 <= x * (x * (x * (x * (x * 1))))) by nra.
  assert (Hx7 : 0 <= x * (x * (x * (x * (x * (x * (x * 1))))))
                <= x * (x * (x * (x * (x * 1))))).
  { split; [nra|].
    replace (x * (x * (x * (x * (x * (x * (x * 1)))))))
      with ((x * x) * (x * (x * (x * (x * (x * 1)))))) by ring.
    nra. }
  lra.
Qed.

Lemma one_minus_cos_lower (d q : R) :
  0 <= d <= 2 -> d <= Rabs q <= PI -> d * d / 8 <= 1 - cos q.
Proof.
  intros [Hd0 Hd2] [Hlo Hhi]. pose proof PI_bounds as [HP1 HP2].
  assert (Hcos : cos q = cos (Rabs q)).
  { unfold Rabs. destruct (Rcase_abs q); [rewrite cos_neg|]; reflexivity. }
  rewrite Hcos. set (t := Rabs q) in *.
  replace t with (2 * (t / 2)) by field. rewrite cos_2a_sin.
  assert (Hs1 : d / 2 / 2 <= sin (d / 2)) by (apply sin_half_lower; lra).
  assert (Hs2 : sin (d / 2) <= sin (t / 2)) by (apply sin_incr_1; lra).
  nra.
Qed.

Lemma sample_angle_away (al : R) (i : nat) :
  0 <= al <= PI / 2 -> 1.5 / 1999 <= Rabs (phi_at al i) .
Proof.
  intros [Hal0 Hal1]. pose proof PI_bounds as [HP1 HP2].
  rewrite phi_at_eq, INR_IZR_INZ.
  assert (Hz : (2 * Z.of_nat i - 1999 <= -1 \/ 1 <= 2 * Z.of_nat i - 1999)%Z) by lia.
  assert (Hr : 2 * IZR (Z.of_nat i) - 1999 <= -1 \/ 1 <= 2 * IZR (Z.of_nat i) - 1999).
  { destruct Hz as [Hz|Hz]; [left|right]; apply IZR_le in Hz;
      rewrite minus_IZR, mult_IZR in Hz; lra. }
  set (k := 2 * IZR (Z.of_nat i) - 1999) in *.
  unfold Rabs. destruct (Rcase_abs ((PI - al) * k / 1999)) as [Hneg|Hpos].
  - destruct Hr as [Hr|Hr].
    + apply Rdiv_ge_iff; [lra|].
      replace (- ((PI - al) * k / 1999) * 1999) with ((PI - al) * (- k)) by field.
      nra.
    + exfalso. apply Rdiv_lt_iff in Hneg; [|lra]. nra.
  - destruct Hr as [Hr|Hr].
    + exfalso.
      assert (H0 : 0 <= (PI - al) * k / 1999) by lra.
      apply Rdiv_ge_iff in H0; [|lra]. nra.
    + apply Rdiv_ge_iff; [lra|]. nra.
Qed.

(** For a circle of at most 100 km no sample is above the surface. *)
Lemma retained_empty_small (r2 : R) :
  0 <= r2 <= 1e7 -> retained r2 = [].
Proof.
  intros [Hlo Hhi]. pose proof R_sun_pos as HR. pose proof PI_bounds as [HP1 HP2].
  destruct (retained r2) as [|rp l] eqn:E; [reflexivity|exfalso].
  assert (Hin : In rp (retained r2)) by (rewrite E; left; reflexivity).
  apply retained_iff in Hin. destruct Hin as (x & Hx & _ & Hd & Hlt).
  pose proof (above_is_close r2 x Hd Hlt) as Hclose.
  assert (Hu : 0 <= 0.5 * (r2 / R_sun) <= 1) by (apply half_ratio_range; unfold R_sun; lra).
  assert (Hal : alpha r2 = Some (acos (0.5 * (r2 / R_sun)))) by (apply alpha_real; lra).
  set (al := acos (0.5 * (r2 / R_sun))) in *.
  assert (Halr : 0 <= al <= PI / 2).
  { split; [apply acos_bound|].
    apply acos_le_iff; [lra|lra|]. rewrite cos_PI2. lra. }
  rewrite (phi_real r2 al Hal) in Hx. apply in_map_iff in Hx.
  destruct Hx as (i & Ei & Hi). injection Ei as <-. apply in_seq in Hi.
  pose proof (sample_angle_away al i Halr) as Haway.
  pose proof (phi_at_range al i ltac:(lra) ltac:(lia)) as Hrange.
  assert (Habs : Rabs (phi_at al i) <= PI) by (apply Rabs_le; lra).
  pose proof (one_minus_cos_lower (1.5 / 1999) (phi_at al i) ltac:(lra)
                (conj Haway Habs)) as Hcos.
  assert (Hnum : 7e-8 <= 1.5 / 1999 * (1.5 / 1999) / 8) by lra.
  assert (Hr2 : r2 ^ 2 <= 1e14) by nra.
  unfold R_sun in Hclose. nra.
Qed.

Lemma where_from_length (mask : list bool) :
  forall i, List.length (where_from i mask) = List.length (filter (fun b => b) mask).
Proof.
  induction mask as [|b mask IH]; intros i; [reflexivity|].
  simpl. destruct b; simpl; rewrite IH; reflexivity.
Qed.

Lemma i_r_length (r2 : R) : List.length (i_r r2) = List.length (retained r2).
Proof.
  rewrite <- selected_length. unfold i_r.
  rewrite take_np_where by (rewrite !length_map; reflexivity).
  rewrite compress_length by (rewrite !length_map; reflexivity).
  apply where_from_length.
Qed.

(** C8, what the code does: when no sample is above the surface the y
    component is built from an empty list, so it is dimensionless, and the
    coordinate constructor fails with a units error; an empty sequence is
    never returned.  This happens for every length from 0 to 100 km. *)
Theorem C8_empty_selection_raises (len theta0 : R) :
  0 < len <= 1e7 ->
  (exists r2, r_2 len = Ok r2 /\ retained r2 = [] /\
              i_r r2 = [] /\
              heliocentric_loop r2 theta0 = Err UnitsError) /\
  semi_circular_loop len theta0 = Err UnitsError /\
  (forall len' theta0' c, semi_circular_loop len' theta0' = Ok c -> data c <> []).
Proof.
  intros [Hpos Hsmall]. pose proof PI_bounds as [HP1 HP2].
  destruct (r_2_near_root len) as (r2 & z & Hr2 & Hin & _).
  { lra. }
  { unfold R_sun. nra. }
  assert (Hlo : 0 <= r2).
  { destruct Hin as [Hlo _]. pose proof (bracket_pos len Hpos) as [Ha _]. lra. }
  assert (Hhi : r2 <= 1e7).
  { destruct Hin as [_ Hhi]. eapply Rle_trans; [exact Hhi|].
    apply Rdiv_le_iff; lra. }
  pose proof (retained_empty_small r2 (conj Hlo Hhi)) as Hempty.
  split; [|split].
  - exists r2. split; [assumption|]. split; [assumption|]. split.
    + apply length_zero_iff_nil. rewrite i_r_length, Hempty. reflexivity.
    + rewrite heliocentric_loop_eq, Hempty. reflexivity.
  - rewrite semi_circular_loop_eq, Hr2, Hempty. reflexivity.
  - intros len' theta0' c Hrun.
    destruct (result_points _ _ _ Hrun) as (r2' & _ & Hne & _ & Hdata).
    rewrite Hdata. intros Hmap. apply map_eq_nil in Hmap. contradiction.
Qed.

Lemma C8_witness :
  semi_circular_loop 100 0 = Err UnitsError.
Proof.
  exact (proj1 (proj2 (C8_empty_selection_raises 100 0 ltac:(lra)))).
Defined.

(** C7: whatever the files were, and whatever the coordinates are, writing
    the tree [{'loop_points': loop_coords.frame}] to ['loop_coords.asdf'] and
    reading it back gives coordinates with the same shape and the same first
    and last points (in fact the same frame and the same points). *)
Theorem C7_asdf_round_trip (loop_coords : SkyCoord) (fs : FileSystem) :
  exists fs' new_coords,
    save_and_load loop_coords fs = Ok (fs', new_coords) /\
    fs' "loop_coords.asdf"%string
    = Some [("loop_points"%string, frame_of loop_coords)] /\
    (forall p, p <> "loop_coords.asdf"%string -> fs' p = fs p) /\
    shape new_coords = shape loop_coords /\
    first_last new_coords = first_last loop_coords /\
    frame new_coords = frame loop_coords /\
    data new_coords = data loop_coords.
Proof.
  exists (asdf_write_to [("loop_points"%string, frame_of loop_coords)]
                        "loop_coords.asdf" fs).
  exists loop_coords.
  assert (Hfile : asdf_write_to [("loop_points"%string, frame_of loop_coords)]
                    "loop_coords.asdf" fs "loop_coords.asdf"%string
                  = Some [("loop_points"%string, frame_of loop_coords)]).
  { unfold asdf_write_to. rewrite String.eqb_refl. reflexivity. }
  split.
  - unfold save_and_load, asdf_open. rewrite Hfile. cbn [bind tree_get].
    rewrite String.eqb_refl. cbn [bind]. destruct loop_coords; reflexivity.
  - split; [exact Hfile|]. split.
    + intros p Hp. unfold asdf_write_to.
      destruct (String.eqb p "loop_coords.asdf") eqn:E; [|reflexivity].
      apply String.eqb_eq in E. contradiction.
    + repeat split; reflexivity.
Qed.

(** ** Lengths for which the equation has no zero in the bracket *)

Lemma r_2_func_none (len x : R) : 2 * R_sun < x -> r_2_func len x = None.
Proof.
  intros Hx. pose proof R_sun_pos as HR. unfold r_2_func, farccos.
  assert (1 < 0.5 * x / R_sun) by (apply Rdiv_gt_iff; lra).
  destruct (Rle_dec (-1) (0.5 * x / R_sun)); [|reflexivity].
  destruct (Rle_dec (0.5 * x / R_sun) 1); [lra|reflexivity].
Qed.


Lemma retained_nan (r2 : R) : alpha r2 = None -> retained r2 = [].
Proof.
  intros Hal. destruct (retained r2) as [|rp l] eqn:E; [reflexivity|exfalso].
  assert (Hin : In rp (retained r2)) by (rewrite E; left; reflexivity).
  apply retained_iff in Hin. destruct Hin as (x & Hx & _).
  rewrite (phi_nan r2 Hal) in Hx. apply repeat_spec in Hx. discriminate.
Qed.




Lemma limit_length_root :
  let len := 4 * PI * R_sun in
  r_2 len = Ok (len / (2 * PI)) /\ r_2_func len (len / (2 * PI)) = Some 0.
Proof.
  intros len. pose proof R_sun_pos as HR. pose proof PI_bounds as [HP1 HP2].
  assert (Ea : len / (2 * PI) = 2 * R_sun) by (unfold len; field; lra).
  assert (Eb : len / PI = 4 * R_sun) by (unfold len; field; lra).
  assert (Hfa : r_2_func len (2 * R_sun) = Some 0).
  { rewrite r_2_func_real.
    - unfold root_eq.
      replace (0.5 * (2 * R_sun) / R_sun) with 1
        by (replace 0.5 with (/ 2) by lra; field; lra).
      rewrite acos_1. f_equal. unfold len. field. lra.
    - lra.
    - replace (0.5 * (2 * R_sun) / R_sun) with 1
        by (replace 0.5 with (/ 2) by lra; field; lra).
      lra. }
  split.
  - unfold r_2, bisect. rewrite Ea, Eb, Hfa.
    rewrite (r_2_func_none len (4 * R_sun)) by lra.
    cbn [fmul lift2 fgt feq].
    destruct (Req_dec_T 0 0); [reflexivity|contradiction].
  - rewrite Ea. exact Hfa.
Qed.








(** * Further properties of the script *)

(** ** The loop as a circle *)

Lemma on_circle (r2 p : R) :
  0 <= disc_at r2 p ->
  (r_at r2 p * sin p) ^ 2 + (r_at r2 p * cos p - R_sun) ^ 2 = r2 ^ 2.
Proof.
  intros Hd. pose proof (r_at_root r2 p Hd) as H.
  unfold quad_a, quad_c in H.
  pose proof (sin2_cos2' p) as Hsc.
  set (r := r_at r2 p) in *.
  replace ((r * sin p) ^ 2 + (r * cos p - R_sun) ^ 2)
    with (r ^ 2 * (sin p * sin p + cos p * cos p)
          - 2 * R_sun * cos p * r + R_sun ^ 2) by ring.
  rewrite Hsc. lra.
Qed.

Lemma r_at_below_top (r2 p : R) :
  0 <= disc_at r2 p -> sin p <> 0 -> r_at r2 p < R_sun + Rabs r2.
Proof.
  intros Hd Hs. pose proof R_sun_pos as HR.
  pose proof (Rabs_pos r2) as Ha.
  assert (Hsq : Rabs r2 * Rabs r2 = r2 ^ 2).
  { unfold Rabs. destruct (Rcase_abs r2); ring. }
  assert (Hs2 : 0 < sin p * sin p) by nra.
  assert (Hlt : sqrt (disc_at r2 p) < 2 * Rabs r2).
  { rewrite <- (sqrt_square (2 * Rabs r2)) by lra.
    apply sqrt_lt_1; [exact Hd|apply Rmult_le_pos; lra|].
    rewrite disc_at_eq.
    assert (0 < R_sun ^ 2 * sin p ^ 2) by (apply Rmult_lt_0_compat; nra).
    nra. }
  pose proof (COS_bound p) as [_ Hc].
  rewrite r_at_eq. nra.
Qed.

Lemma heliocentric_loop_data (r2 theta0 : R) (hcc : SkyCoord) :
  heliocentric_loop r2 theta0 = Ok hcc ->
  data hcc = map hcc_point (retained r2).
Proof.
  intros H. destruct (heliocentric_loop_ok r2 theta0 hcc H) as [-> _].
  reflexivity.
Qed.

(** X1: every point that [semi_circular_loop] builds in the heliocentric
    frame lies in the plane [y = 0] on the circle of radius [|r2|] whose
    centre is the foot point [(0, 0, r1)] of the observer on the surface. *)
Theorem X1_points_on_circle (r2 theta0 : R) (hcc : SkyCoord) (x y z : float) :
  heliocentric_loop r2 theta0 = Ok hcc ->
  In (x, y, z) (data hcc) ->
  exists xv zv,
    x = Some xv /\ y = Some 0 /\ z = Some zv /\
    xv ^ 2 + (zv - R_sun) ^ 2 = r2 ^ 2.
Proof.
  intros Hrun Hin.
  rewrite (heliocentric_loop_data r2 theta0 hcc Hrun) in Hin.
  apply in_map_iff in Hin.
  destruct Hin as (rp & Hpt & Hrp).
  apply retained_iff in Hrp. destruct Hrp as (p & _ & -> & Hd & _).
  rewrite hcc_point_real in Hpt. injection Hpt as <- <- <-.
  exists (r_at r2 p * sin p), (r_at r2 p * cos p).
  split; [reflexivity|]. split; [reflexivity|]. split; [reflexivity|].
  apply on_circle. exact Hd.
Qed.

Lemma X1_witness :
  exists hcc x y z xv zv,
    heliocentric_loop R_sun 0 = Ok hcc /\ In (x, y, z) (data hcc) /\
    x = Some xv /\ y = Some 0 /\ z = Some zv /\
    xv ^ 2 + (zv - R_sun) ^ 2 = R_sun ^ 2.
Proof.
  pose proof R_sun_pos as HR.
  assert (Hne : retained R_sun <> []).
  { apply retained_nonempty. unfold R_sun. lra. }
  pose proof (heliocentric_loop_eq R_sun 0) as Hrun.
  destruct (retained R_sun) as [|rp l] eqn:E; [contradiction|].
  destruct (hcc_point rp) as [[x y] z] eqn:Ept.
  assert (Hin : In (x, y, z)
                   (data (mkSkyCoord (Heliocentric (mkObserver 0 0 R_sun))
                                     (map hcc_point (rp :: l))))).
  { left. exact Ept. }
  destruct (X1_points_on_circle R_sun 0 _ x y z Hrun Hin)
    as (xv & zv & Hx & Hy & Hz & Hc).
  exists (mkSkyCoord (Heliocentric (mkObserver 0 0 R_sun)) (map hcc_point (rp :: l))),
    x, y, z, xv, zv.
  split; [exact Hrun|]. split; [exact Hin|]. auto.
Defined.

(** X2: for a positive length every returned point is at a distance from
    the centre of the Sun that is above the solar radius and below the
    solar radius plus [length / pi]: the loop never rises higher than the
    right end of the root finder's bracket. *)
Theorem X2_height_bound (len theta0 : R) (c : SkyCoord) (lon lat rad : float) :
  0 < len ->
  semi_circular_loop len theta0 = Ok c ->
  In (lon, lat, rad) (data c) ->
  exists d, rad = Some d /\ R_sun < d < R_sun + len / PI.
Proof.
  intros Hlen Hrun Hin.
  destruct (result_point_inv len theta0 c _ Hrun Hin)
    as (r2 & p & Hr2 & Hp & Hd & Habove & Hpt).
  injection Hpt as _ _ ->.
  pose proof (r_2_range len r2 Hlen Hr2) as [Hlo Hhi].
  assert (Hpos : 0 < r2).
  { pose proof PI_bounds as [HP1 HP2].
    assert (0 < len / (2 * PI)) by (apply Rdiv_gt_iff; lra). lra. }
  assert (Hs : sin p <> 0).
  { apply (retained_angle_sin r2 p); [lra|assumption..]. }
  pose proof (r_at_below_top r2 p Hd Hs) as Htop.
  rewrite Rabs_right in Htop by lra.
  exists (r_at r2 p). split; [reflexivity|]. lra.
Qed.

Lemma X2_witness :
  exists c lon lat rad d,
    semi_circular_loop 5e10 30 = Ok c /\ In (lon, lat, rad) (data c) /\
    rad = Some d /\ R_sun < d < R_sun + 5e10 / PI.
Proof.
  destruct (loop_succeeds 5e10 30) as (r2 & c & _ & _ & Hne & Hrun & _ & Hdata).
  { unfold R_sun. lra. }
  destruct (data c) as [|[[lon lat] rad] l] eqn:E.
  - exfalso. destruct (retained r2); [contradiction|discriminate].
  - assert (Hin : In (lon, lat, rad) (data c)) by (rewrite E; left; reflexivity).
    destruct (X2_height_bound 5e10 30 c lon lat rad ltac:(lra) Hrun Hin)
      as (d & Hd & Hr).
    exists c, lon, lat, rad, d.
    split; [exact Hrun|]. split; [exact Hin|]. split; [exact Hd|exact Hr].
Defined.

(** ** Which samples are selected *)

Lemma close_is_above (r2 p : R) :
  2 * R_sun ^ 2 * (1 - cos p) < r2 ^ 2 ->
  0 <= disc_at r2 p /\ R_sun < r_at r2 p.
Proof.
  intros H. pose proof (sin2_cos2' p) as Hsc.
  pose proof (COS_bound p) as [Hc1 Hc2]. pose proof R_sun_pos as HR.
  set (t := 2 * R_sun * (1 - cos p)).
  assert (Ht : 0 <= t) by (unfold t; nra).
  assert (Hlt : t * t < disc_at r2 p).
  { rewrite disc_at_eq. unfold t.
    replace (sin p ^ 2) with (1 - cos p * cos p) by lra.
    nra. }
  split; [nra|].
  assert (Hsq : sqrt (t * t) < sqrt (disc_at r2 p)).
  { apply sqrt_lt_1; nra. }
  rewrite sqrt_square in Hsq by assumption.
  rewrite r_at_eq. unfold t in Hsq. lra.
Qed.

Lemma in_where_from (mask : list bool) :
  forall k i,
    In i (where_from k mask) <-> (k <= i)%nat /\ nth (i - k) mask false = true.
Proof.
  induction mask as [|b mask IH]; intros k i.
  - simpl. split; [tauto|]. intros [_ H]. destruct (i - k)%nat; discriminate.
  - assert (Hstep : (S k <= i)%nat ->
                    nth (i - k) (b :: mask) false = nth (i - S k) mask false).
    { intros Hle. replace (i - k)%nat with (S (i - S k)) by lia. reflexivity. }
    cbn [where_from]. destruct b.
    + cbn [In]. rewrite IH. split.
      * intros [<- | [Hle Hn]].
        -- split; [lia|]. rewrite Nat.sub_diag. reflexivity.
        -- split; [lia|]. rewrite Hstep by exact Hle. exact Hn.
      * intros [Hle Hn]. destruct (Nat.eq_dec k i) as [E|Hne]; [left; exact E|right].
        split; [lia|]. rewrite <- Hstep by lia. exact Hn.
    + rewrite IH. split.
      * intros [Hle Hn]. split; [lia|]. rewrite Hstep by exact Hle. exact Hn.
      * intros [Hle Hn]. destruct (Nat.eq_dec k i) as [E|Hne].
        -- subst i. rewrite Nat.sub_diag in Hn. discriminate.
        -- split; [lia|]. rewrite <- Hstep by lia. exact Hn.
Qed.

Lemma in_np_where (mask : list bool) (i : nat) :
  In i (np_where mask) <-> nth i mask false = true.
Proof.
  unfold np_where. rewrite in_where_from, Nat.sub_0_r.
  split; [intros [_ H]; exact H|intros H; split; [lia|exact H]].
Qed.

Lemma in_i_r (r2 : R) (i : nat) :
  In i (i_r r2)
  <-> above_surface (r_of r2 (nth i (phi r2) NaN), nth i (phi r2) NaN) = true.
Proof.
  unfold i_r. rewrite in_np_where, map_map.
  change false with ((fun p => fgt (r_of r2 p) (Some R_sun)) NaN).
  rewrite map_nth. unfold above_surface. cbn [fst].
  split; intros H; exact H.
Qed.

Lemma nth_phi (r2 al : R) (i : nat) :
  alpha r2 = Some al -> (i < 2000)%nat ->
  nth i (phi r2) NaN = Some (phi_at al i).
Proof.
  intros Hal Hi. rewrite (phi_real r2 al Hal).
  apply (nth_map_seq (fun i => Some (phi_at al i))). exact Hi.
Qed.

Lemma nth_phi_out (r2 : R) (i : nat) :
  (2000 <= i)%nat -> nth i (phi r2) NaN = NaN.
Proof.
  intros Hi. apply nth_overflow. rewrite phi_length. exact Hi.
Qed.

Lemma selected_iff (r2 al : R) (i : nat) :
  alpha r2 = Some al ->
  (In i (i_r r2)
   <-> (i < 2000)%nat /\ 2 * R_sun ^ 2 * (1 - cos (phi_at al i)) < r2 ^ 2).
Proof.
  intros Hal. rewrite in_i_r, above_surface_iff. split.
  - intros (x & Hx & Hd & Hr). destruct (Nat.lt_ge_cases i 2000) as [Hi|Hi].
    + rewrite (nth_phi r2 al i Hal Hi) in Hx. injection Hx as <-.
      split; [exact Hi|]. apply above_is_close; assumption.
    + rewrite nth_phi_out in Hx by exact Hi. discriminate.
  - intros [Hi Hc]. exists (phi_at al i).
    split; [apply nth_phi; assumption|]. apply close_is_above. exact Hc.
Qed.

Lemma i_r_nan (r2 : R) : alpha r2 = None -> i_r r2 = [].
Proof.
  intros Hal. apply length_zero_iff_nil.
  rewrite i_r_length, (retained_nan r2 Hal). reflexivity.
Qed.

Lemma alpha_range (r2 al : R) : alpha r2 = Some al -> 0 <= al <= PI.
Proof.
  intros Hal. destruct (alpha_some r2 al Hal) as [_ ->]. apply acos_bound.
Qed.

Lemma alpha_acute (r2 al : R) :
  0 <= r2 -> alpha r2 = Some al -> 0 <= al <= PI / 2.
Proof.
  intros Hr Hal. destruct (alpha_some r2 al Hal) as [[_ Hu] ->].
  pose proof R_sun_pos as HR. pose proof PI_bounds as [HP1 HP2].
  assert (0 <= r2 / R_sun) by (apply Rdiv_ge_iff; lra).
  split; [apply acos_bound|].
  apply acos_le_iff; [lra|lra|]. rewrite cos_PI2. lra.
Qed.

Lemma phi_at_mono (al : R) (i j : nat) :
  al <= PI -> (i <= j)%nat -> phi_at al i <= phi_at al j.
Proof.
  intros Hal Hij. rewrite !phi_at_eq. apply le_INR in Hij.
  unfold Rdiv. apply Rmult_le_compat_r; [lra|].
  apply Rmult_le_compat_l; lra.
Qed.

Lemma phi_at_strict (al : R) (i j : nat) :
  al < PI -> (i < j)%nat -> phi_at al i < phi_at al j.
Proof.
  intros Hal Hij. rewrite !phi_at_eq. apply lt_INR in Hij.
  unfold Rdiv. apply Rmult_lt_compat_r; [lra|].
  apply Rmult_lt_compat_l; lra.
Qed.

Lemma cos_Rabs (x : R) : cos (Rabs x) = cos x.
Proof.
  unfold Rabs. destruct (Rcase_abs x); [apply cos_neg|reflexivity].
Qed.

Lemma cos_le_abs (x y : R) :
  Rabs x <= Rabs y -> Rabs y <= PI -> cos y <= cos x.
Proof.
  intros Hxy Hy. rewrite <- (cos_Rabs x), <- (cos_Rabs y).
  pose proof (Rabs_pos x). pose proof (Rabs_pos y).
  apply cos_decr_1; lra.
Qed.

Lemma sin_sq_le (x : R) : Rabs x <= 1 -> sin x * sin x <= x * x.
Proof.
  intros Hx. pose proof PI_bounds as [HP1 HP2].
  assert (Hpos : forall y, 0 < y <= 1 -> sin y * sin y <= y * y).
  { intros y [Hy0 Hy1].
    assert (0 < sin y) by (apply sin_gt_0; lra).
    assert (sin y < y) by (apply sin_lt_x; lra).
    nra. }
  destruct (Rtotal_order x 0) as [Hneg|[->|Hp]].
  - rewrite Rabs_left in Hx by exact Hneg.
    specialize (Hpos (- x) ltac:(lra)). rewrite sin_neg in Hpos. nra.
  - rewrite sin_0. lra.
  - rewrite Rabs_right in Hx by lra. apply Hpos. lra.
Qed.

(** The twenty samples around the apex are selected for a circle between
    40000 km and the solar diameter. *)
Lemma near_apex_selected (r2 : R) (i : nat) :
  4e9 <= r2 <= 2 * R_sun -> (990 <= i <= 1009)%nat -> In i (i_r r2).
Proof.
  intros [Hlo Hhi] [Hi1 Hi2].
  pose proof R_sun_pos as HR. pose proof PI_bounds as [HP1 HP2].
  assert (Hu : 0 <= 0.5 * (r2 / R_sun) <= 1) by (apply half_ratio_range; lra).
  set (al := acos (0.5 * (r2 / R_sun))).
  assert (Hal : alpha r2 = Some al) by (apply alpha_real; lra).
  assert (Halr : 0 <= al <= PI / 2) by (apply (alpha_acute r2); [lra|exact Hal]).
  assert (Hi : 990 <= INR i <= 1009).
  { split.
    - replace 990 with (INR 990) by (rewrite INR_IZR_INZ; reflexivity).
      apply le_INR. exact Hi1.
    - replace 1009 with (INR 1009) by (rewrite INR_IZR_INZ; reflexivity).
      apply le_INR. exact Hi2. }
  set (p := phi_at al i).
  assert (Hp : p = (PI - al) * (2 * INR i - 1999) / 1999) by apply phi_at_eq.
  assert (Hpr : - 0.0381 <= p <= 0.0381).
  { rewrite Hp. split; [apply Rdiv_ge_iff | apply Rdiv_le_iff]; nra. }
  assert (Hcos : 0 <= cos p) by (apply cos_ge_0; lra).
  assert (Hs : sin p * sin p <= p * p).
  { apply sin_sq_le. unfold Rabs. destruct (Rcase_abs p); lra. }
  assert (Hp2 : p * p <= 0.00146) by nra.
  destruct (above_when_close r2 p Hcos) as [Hd Hlt].
  { assert (Hs2 : (R_sun * sin p) ^ 2 <= 6.957e10 * 6.957e10 * 0.00146).
    { replace ((R_sun * sin p) ^ 2) with (R_sun * R_sun * (sin p * sin p)) by ring.
      unfold R_sun. nra. }
    nra. }
  apply (selected_iff r2 al i Hal). split; [lia|].
  apply above_is_close; assumption.
Qed.

(** X3: a sample is selected by [np.where(r > r_1)] exactly when its angle
    [p] satisfies [2 r1^2 (1 - cos p) < r2^2] (the surface point at angle [p]
    is less than [r2] away from the foot point); when the half-angle is NaN
    nothing is selected. *)
Theorem X3_selection_criterion (r2 : R) :
  (forall al i,
      alpha r2 = Some al ->
      (In i (i_r r2)
       <-> (i < 2000)%nat /\
           2 * R_sun ^ 2 * (1 - cos (phi_at al i)) < r2 ^ 2)) /\
  (forall al i,
      alpha r2 = Some al -> (i < 2000)%nat ->
      nth i (phi r2) NaN = Some (phi_at al i)) /\
  (alpha r2 = None -> i_r r2 = []).
Proof.
  split; [|split].
  - intros al i Hal. apply selected_iff. exact Hal.
  - intros al i Hal Hi. apply nth_phi; assumption.
  - apply i_r_nan.
Qed.

Lemma X3_witness :
  exists al,
    alpha R_sun = Some al /\
    (In 1000%nat (i_r R_sun)
     <-> (1000 < 2000)%nat /\
         2 * R_sun ^ 2 * (1 - cos (phi_at al 1000)) < R_sun ^ 2) /\
    nth 1000 (phi R_sun) NaN = Some (phi_at al 1000).
Proof.
  pose proof R_sun_pos as HR.
  assert (Hu : 0 <= 0.5 * (R_sun / R_sun) <= 1) by (apply half_ratio_range; lra).
  assert (Hal : alpha R_sun = Some (acos (0.5 * (R_sun / R_sun))))
    by (apply alpha_real; lra).
  destruct (X3_selection_criterion R_sun) as (Hsel & Hnth & _).
  exists (acos (0.5 * (R_sun / R_sun))).
  split; [exact Hal|]. split.
  - apply Hsel. exact Hal.
  - apply Hnth; [exact Hal|lia].
Defined.

(** X4: the selected indices form one run without gaps: every index
    between two selected indices is selected, so the points returned are
    consecutive samples. *)
Theorem X4_selection_contiguous (r2 : R) (i j k : nat) :
  In i (i_r r2) -> In k (i_r r2) -> (i <= j <= k)%nat -> In j (i_r r2).
Proof.
  intros Hi Hk [Hij Hjk].
  destruct (alpha r2) as [al|] eqn:Hal.
  - pose proof (alpha_range r2 al Hal) as [Ha0 HaP].
    apply (selected_iff r2 al _ Hal) in Hi. destruct Hi as [Hi Hci].
    apply (selected_iff r2 al _ Hal) in Hk. destruct Hk as [Hk Hck].
    apply (selected_iff r2 al _ Hal). split; [lia|].
    pose proof (phi_at_mono al i j HaP Hij) as Hm1.
    pose proof (phi_at_mono al j k HaP Hjk) as Hm2.
    pose proof (phi_at_range al i HaP Hi) as Hri.
    pose proof (phi_at_range al k HaP Hk) as Hrk.
    pose proof R_sun_pos as HR.
    assert (HR2 : 0 < 2 * R_sun ^ 2) by nra.
    destruct (Rle_dec 0 (phi_at al j)) as [Hpos|Hneg].
    + assert (Hc : cos (phi_at al k) <= cos (phi_at al j)).
      { apply cos_le_abs; rewrite ?Rabs_right by lra; lra. }
      nra.
    + assert (Hc : cos (phi_at al i) <= cos (phi_at al j)).
      { apply cos_le_abs; rewrite ?Rabs_left by lra; lra. }
      nra.
  - rewrite (i_r_nan r2 Hal) in Hi. contradiction.
Qed.

Lemma X4_witness :
  In 992%nat (i_r R_sun) /\ In 1008%nat (i_r R_sun) /\ In 1000%nat (i_r R_sun).
Proof.
  pose proof R_sun_pos as HR.
  assert (H : 4e9 <= R_sun <= 2 * R_sun) by (unfold R_sun; lra).
  pose proof (near_apex_selected R_sun 992 H ltac:(lia)) as H992.
  pose proof (near_apex_selected R_sun 1008 H ltac:(lia)) as H1008.
  split; [exact H992|]. split; [exact H1008|].
  apply (X4_selection_contiguous R_sun 992 1000 1008 H992 H1008). lia.
Defined.

(** ** Order of the selected samples *)

Lemma where_from_sorted (mask : list bool) :
  forall k,
    StronglySorted lt (where_from k mask) /\
    Forall (fun i => (k <= i < k + List.length mask)%nat) (where_from k mask).
Proof.
  induction mask as [|b mask IH]; intros k.
  - split; constructor.
  - destruct (IH (S k)) as [Hs Hf]. cbn [where_from List.length].
    assert (Hf' : Forall (fun i => (k <= i < k + S (List.length mask))%nat)
                         (where_from (S k) mask)).
    { eapply Forall_impl; [|exact Hf]. cbn beta. intros i Hi. lia. }
    destruct b.
    + split.
      * constructor; [exact Hs|].
        eapply Forall_impl; [|exact Hf]. cbn beta. intros i Hi. lia.
      * constructor; [lia|exact Hf'].
    + split; [exact Hs|exact Hf'].
Qed.

Lemma take_map {A B : Type} (f : A -> B) (l : list A) (idx : list nat) :
  take (map f l) idx = map f (take l idx).
Proof.
  unfold take. induction idx as [|i idx IH]; [reflexivity|].
  cbn [flat_map]. rewrite map_app, IH, nth_error_map.
  destruct (nth_error l i); reflexivity.
Qed.

Lemma take_length {A : Type} (l : list A) (idx : list nat) :
  Forall (fun i => (i < List.length l)%nat) idx ->
  List.length (take l idx) = List.length idx.
Proof.
  unfold take. induction 1 as [|i idx Hi _ IH]; [reflexivity|].
  cbn [flat_map]. rewrite length_app, IH.
  destruct (nth_error l i) eqn:E; [reflexivity|].
  apply nth_error_None in E. lia.
Qed.

Lemma i_r_in_range (r2 : R) :
  StronglySorted lt (i_r r2) /\ Forall (fun i => (i < 2000)%nat) (i_r r2).
Proof.
  unfold i_r, np_where.
  destruct (where_from_sorted
              (map (fun v => fgt v (Some R_sun)) (map (r_of r2) (phi r2))) 0)
    as [Hs Hf].
  split; [exact Hs|].
  eapply Forall_impl; [|exact Hf]. cbn beta.
  rewrite !length_map, phi_length. intros i Hi. lia.
Qed.

Lemma sorted_filter {A : Type} (rel : A -> A -> Prop) (P : A -> bool) (l : list A) :
  StronglySorted rel l -> StronglySorted rel (filter P l).
Proof.
  induction 1 as [|a l Hs IH Hf]; [constructor|].
  cbn [filter]. destruct (P a); [|exact IH].
  constructor; [exact IH|].
  apply Forall_forall. intros x Hx. apply filter_In in Hx.
  rewrite Forall_forall in Hf. apply Hf. apply Hx.
Qed.

Lemma sorted_map {A B : Type} (relA : A -> A -> Prop) (relB : B -> B -> Prop)
      (f : A -> B) (l : list A) :
  (forall a b, relA a b -> relB (f a) (f b)) ->
  StronglySorted relA l -> StronglySorted relB (map f l).
Proof.
  intros Hf. induction 1 as [|a l Hs IH Hall]; [constructor|].
  cbn [map]. constructor; [exact IH|].
  apply Forall_forall. intros y Hy. apply in_map_iff in Hy.
  destruct Hy as (x & <- & Hx). apply Hf.
  rewrite Forall_forall in Hall. apply Hall. exact Hx.
Qed.

Lemma sorted_seq (n : nat) : forall k, StronglySorted lt (seq k n).
Proof.
  induction n as [|n IH]; intros k; [constructor|].
  cbn [seq]. constructor; [apply IH|].
  apply Forall_forall. intros i Hi. apply in_seq in Hi. lia.
Qed.

Lemma filter_map_comm {A B : Type} (P : B -> bool) (g : A -> B) (l : list A) :
  filter P (map g l) = map g (filter (fun a => P (g a)) l).
Proof.
  induction l as [|a l IH]; [reflexivity|].
  cbn [map filter]. destruct (P (g a)); cbn [map]; rewrite IH; reflexivity.
Qed.

(** [phi[i_r]] as a filter of the sampled angles. *)
Lemma selected_angles (r2 : R) :
  take (phi r2) (i_r r2)
  = filter (fun p => fgt (r_of r2 p) (Some R_sun)) (phi r2).
Proof.
  unfold i_r. rewrite map_map.
  rewrite take_np_where by (rewrite length_map; reflexivity).
  apply compress_map_filter.
Qed.

(** X5: the index array [i_r] is strictly increasing and every index is
    below 2000, so [r[i_r]] and [phi[i_r]] never index out of range: they
    have one element per index, and the selected radial distances are the
    quadratic formula applied to the selected angles, position by
    position. *)
Theorem X5_selection_in_range (r2 : R) :
  StronglySorted lt (i_r r2) /\
  Forall (fun i => (i < 2000)%nat) (i_r r2) /\
  List.length (take (map (r_of r2) (phi r2)) (i_r r2)) = List.length (i_r r2) /\
  List.length (take (phi r2) (i_r r2)) = List.length (i_r r2) /\
  take (map (r_of r2) (phi r2)) (i_r r2) = map (r_of r2) (take (phi r2) (i_r r2)).
Proof.
  destruct (i_r_in_range r2) as [Hs Hf].
  assert (Hlen : List.length (take (phi r2) (i_r r2)) = List.length (i_r r2)).
  { apply take_length. rewrite phi_length. exact Hf. }
  split; [exact Hs|]. split; [exact Hf|].
  rewrite take_map, length_map.
  split; [exact Hlen|]. split; [exact Hlen|reflexivity].
Qed.

(** X6: for a circle radius that is not negative the selected angles
    [phi[i_r]] are real numbers in strictly increasing order: the points
    are returned in the order in which they lie along the loop. *)
Theorem X6_angles_increasing (r2 : R) :
  0 <= r2 ->
  exists ps, take (phi r2) (i_r r2) = map Some ps /\ StronglySorted Rlt ps.
Proof.
  intros Hr. destruct (alpha r2) as [al|] eqn:Hal.
  - pose proof (alpha_acute r2 al Hr Hal) as [Ha0 Ha2].
    pose proof PI_bounds as [HP1 HP2].
    rewrite selected_angles, (phi_real r2 al Hal).
    rewrite (filter_map_comm (fun p => fgt (r_of r2 p) (Some R_sun))
                             (fun i => Some (phi_at al i))).
    set (sel := filter (fun i => fgt (r_of r2 (Some (phi_at al i))) (Some R_sun))
                       (seq 0 2000)).
    exists (map (phi_at al) sel). split.
    + rewrite map_map. reflexivity.
    + apply (sorted_map lt Rlt).
      * intros i j Hij. apply phi_at_strict; [lra|exact Hij].
      * apply sorted_filter. apply sorted_seq.
  - exists []. rewrite (i_r_nan r2 Hal). split; [reflexivity|constructor].
Qed.

Lemma X6_witness :
  exists ps, take (phi R_sun) (i_r R_sun) = map Some ps /\ StronglySorted Rlt ps.
Proof.
  apply X6_angles_increasing. pose proof R_sun_pos. lra.
Defined.

(** X7: for a circle radius from 0 to the solar diameter the two extreme
    samples, at the angles [-(pi - alpha)] and [pi - alpha], are never
    above the surface: indices 0 and 1999 are not selected and at most
    1998 points are kept. *)
Theorem X7_extreme_samples_dropped (r2 : R) :
  0 <= r2 ->
  ~ In 0%nat (i_r r2) /\ ~ In 1999%nat (i_r r2) /\
  (List.length (i_r r2) <= 1998)%nat.
Proof.
  intros Hr.
  assert (Hends : ~ In 0%nat (i_r r2) /\ ~ In 1999%nat (i_r r2)).
  { destruct (alpha r2) as [al|] eqn:Hal.
    - pose proof (alpha_some r2 al Hal) as [[_ Hu] Eal].
      pose proof R_sun_pos as HR.
      assert (Hq : 0 <= r2 / R_sun) by (apply Rdiv_ge_iff; lra).
      assert (Hcos : cos al = 0.5 * (r2 / R_sun)).
      { rewrite Eal. apply cos_acos. lra. }
      assert (Hr2 : r2 = 2 * R_sun * cos al).
      { rewrite Hcos. replace 0.5 with (/ 2) by lra. field. lra. }
      assert (H0 : phi_at al 0 = - (PI - al)).
      { rewrite first_angle. ring. }
      assert (H1999 : phi_at al 1999 = PI - al).
      { rewrite phi_at_eq, INR_1999. field. }
      assert (Hc : cos (PI - al) = - cos al) by apply cos_PI_minus.
      assert (Hc01 : 0 <= cos al <= 1) by lra.
      assert (Hno : ~ 2 * R_sun ^ 2 * (1 - - cos al) < r2 ^ 2).
      { rewrite Hr2. intros Hlt.
        assert (0 < R_sun ^ 2) by nra.
        assert (1 + cos al < 2 * cos al ^ 2) by nra.
        nra. }
      split; intros Hin; apply (selected_iff r2 al _ Hal) in Hin;
        destruct Hin as [_ Hin]; apply Hno.
      + rewrite H0, cos_neg, Hc in Hin. exact Hin.
      + rewrite H1999, Hc in Hin. exact Hin.
    - rewrite (i_r_nan r2 Hal). split; intros []. }
  split; [apply Hends|]. split; [apply Hends|].
  destruct (i_r_in_range r2) as [Hs Hf].
  assert (Hnd : NoDup (i_r r2)).
  { clear Hf Hends. induction Hs as [|a l Hs IH Hall]; constructor; [|exact IH].
    intros Hin. rewrite Forall_forall in Hall. specialize (Hall a Hin). lia. }
  assert (Hincl : incl (i_r r2) (seq 1 1998)).
  { intros i Hi. apply in_seq. rewrite Forall_forall in Hf. specialize (Hf i Hi).
    destruct Hends as [H0 H1999].
    assert (i <> 0%nat) by (intros ->; contradiction).
    assert (i <> 1999%nat) by (intros ->; contradiction).
    lia. }
  pose proof (NoDup_incl_length Hnd Hincl) as Hle.
  rewrite length_seq in Hle. exact Hle.
Qed.

Lemma X7_witness :
  ~ In 0%nat (i_r R_sun) /\ ~ In 1999%nat (i_r R_sun) /\
  (List.length (i_r R_sun) <= 1998)%nat.
Proof.
  apply X7_extreme_samples_dropped. pose proof R_sun_pos. lra.
Defined.

(** ** Symmetry of the whole sequence *)

Lemma hcc_point_mirror (rp : float * float) :
  hcc_point (mirror rp) = flip_first (hcc_point rp).
Proof.
  destruct rp as [[r|] [p|]]; try reflexivity.
  unfold mirror, hcc_point, flip_first. cbn [fst snd fneg fsin fcos fmul lift1 lift2].
  rewrite sin_neg, cos_neg.
  replace (r * - sin p) with (- (r * sin p)) by ring. reflexivity.
Qed.

Lemma hgs_point_mirror (r2 theta0 : R) (rp : float * float) :
  0 <= r2 -> In rp (retained r2) ->
  hcc_to_hgs (loop_observer theta0) (hcc_point (mirror rp))
  = flip_first (hcc_to_hgs (loop_observer theta0) (hcc_point rp)).
Proof.
  intros Hr Hin. apply retained_iff in Hin.
  destruct Hin as (x & Hx & -> & Hd & Habove).
  pose proof R_sun_pos as HR.
  assert (Hs : sin x <> 0) by (apply (retained_angle_sin r2 x); assumption).
  assert (Hpos : 0 < r_at r2 x) by lra.
  change (mirror (Some (r_at r2 x), Some x)) with (Some (r_at r2 x), Some (- x)).
  rewrite !hcc_to_hgs_sample by exact Hpos.
  rewrite hgs_lon_mirror, hgs_lat_mirror; [reflexivity|].
  apply Rmult_integral_contrapositive_currified; [lra|exact Hs].
Qed.

Lemma rev_map_mirrored {A B : Type} (m : A -> A) (g : A -> B) (fl : B -> B)
      (l : list A) :
  rev l = map m l ->
  (forall a, In a l -> g (m a) = fl (g a)) ->
  rev (map g l) = map fl (map g l).
Proof.
  intros Hrev Hg. rewrite <- map_rev, Hrev, !map_map.
  apply map_ext_in. exact Hg.
Qed.

Lemma length_filter_rev {A : Type} (P : A -> bool) (l : list A) :
  List.length (filter P (rev l)) = List.length (filter P l).
Proof.
  induction l as [|a l IH]; [reflexivity|].
  cbn [rev filter]. rewrite filter_app, length_app, IH.
  cbn [filter]. destruct (P a); cbn [List.length]; lia.
Qed.

Lemma length_filter_map {A : Type} (P : A -> bool) (m : A -> A) (l : list A) :
  (forall a, P (m a) = P a) ->
  List.length (filter P (map m l)) = List.length (filter P l).
Proof.
  intros HP. induction l as [|a l IH]; [reflexivity|].
  cbn [map filter]. rewrite HP. destruct (P a); cbn [List.length]; rewrite IH; reflexivity.
Qed.

(** A list of even length that is its own mirror image keeps an even
    number of elements under a filter that does not tell an element from
    its image. *)
Lemma filter_mirrored_even {A : Type} (P : A -> bool) (m : A -> A)
      (l : list A) (n : nat) :
  (forall a, P (m a) = P a) ->
  List.length l = (2 * n)%nat -> rev l = map m l ->
  List.length (filter P l) = (2 * List.length (filter P (firstn n l)))%nat.
Proof.
  intros HP Hlen Hrev.
  assert (Hsk : skipn n l = rev (map m (firstn n l))).
  { rewrite <- firstn_map, <- Hrev, firstn_rev, rev_involutive.
    f_equal. lia. }
  rewrite <- (firstn_skipn n l) at 1.
  rewrite filter_app, length_app, Hsk, length_filter_rev, length_filter_map by exact HP.
  lia.
Qed.

Lemma samples_length (r2 : R) : List.length (samples r2) = 2000%nat.
Proof.
  rewrite samples_map, length_map. apply phi_length.
Qed.

Lemma retained_even (r2 : R) :
  exists m, List.length (retained r2) = (2 * m)%nat.
Proof.
  exists (List.length (filter above_surface (firstn 1000 (samples r2)))).
  unfold retained. apply (filter_mirrored_even above_surface mirror).
  - intros a. reflexivity.
  - apply samples_length.
  - apply samples_rev.
Qed.

(** X8: the whole sequence is its own mirror image.  For a positive
    length, reading the heliocentric points backwards gives the same
    points with the opposite [x], and reading the returned points
    backwards gives the same points with the opposite longitude: point [k]
    from the start and point [k] from the end have opposite longitudes and
    the same latitude and radius. *)
Theorem X8_sequence_mirrored (len theta0 : R) (c : SkyCoord) :
  0 < len ->
  semi_circular_loop len theta0 = Ok c ->
  exists r2 hcc,
    r_2 len = Ok r2 /\
    heliocentric_loop r2 theta0 = Ok hcc /\
    c = transform_to_hgs hcc /\
    rev (data hcc) = map flip_first (data hcc) /\
    rev (data c) = map flip_first (data c).
Proof.
  intros Hlen Hrun.
  destruct (result_points len theta0 c Hrun) as (r2 & Hr2 & _ & _ & Hdata).
  unfold semi_circular_loop in Hrun.
  apply bind_ok in Hrun. destruct Hrun as (r2' & Hr2' & Hrun).
  rewrite Hr2 in Hr2'. injection Hr2' as <-.
  apply bind_ok in Hrun. destruct Hrun as (hcc & Hh & Hrun).
  injection Hrun as Hc.
  exists r2, hcc. split; [exact Hr2|]. split; [exact Hh|].
  split; [symmetry; exact Hc|].
  pose proof (r_2_range len r2 Hlen Hr2) as [Hlo _].
  assert (Hpos : 0 <= r2).
  { pose proof PI_bounds as [HP1 HP2].
    assert (0 < len / (2 * PI)) by (apply Rdiv_gt_iff; lra). lra. }
  split.
  - rewrite (heliocentric_loop_data r2 theta0 hcc Hh).
    apply (rev_map_mirrored mirror); [apply retained_rev|].
    intros rp _. apply hcc_point_mirror.
  - rewrite Hdata.
    apply (rev_map_mirrored mirror
             (fun rp => hcc_to_hgs (loop_observer theta0) (hcc_point rp)));
      [apply retained_rev|].
    intros rp Hin. apply (hgs_point_mirror r2); assumption.
Qed.

Lemma X8_witness :
  exists c, semi_circular_loop 5e10 30 = Ok c /\
            rev (data c) = map flip_first (data c).
Proof.
  destruct (loop_succeeds 5e10 30) as (r2 & c & _ & _ & _ & Hrun & _).
  { unfold R_sun. lra. }
  destruct (X8_sequence_mirrored 5e10 30 c ltac:(lra) Hrun)
    as (r2' & hcc & _ & _ & _ & _ & Hrev).
  exists c. split; [exact Hrun|exact Hrev].
Defined.

(** X9: the number of points returned is always even, and at least two:
    the 2000 samples come in mirrored pairs, which are kept or dropped
    together. *)
Theorem X9_even_count (len theta0 : R) (c : SkyCoord) :
  semi_circular_loop len theta0 = Ok c ->
  exists m, (1 <= m)%nat /\ shape c = (2 * m)%nat.
Proof.
  intros Hrun.
  destruct (result_points len theta0 c Hrun) as (r2 & _ & Hne & _ & Hdata).
  destruct (retained_even r2) as (m & Hm).
  exists m. unfold shape. rewrite Hdata, length_map. split; [|exact Hm].
  destruct m as [|m]; [|lia].
  exfalso. apply Hne. apply length_zero_iff_nil. exact Hm.
Qed.

Lemma X9_witness :
  exists c m, semi_circular_loop 5e10 30 = Ok c /\
              (1 <= m)%nat /\ shape c = (2 * m)%nat.
Proof.
  destruct (loop_succeeds 5e10 30) as (r2 & c & _ & _ & _ & Hrun & _).
  { unfold R_sun. lra. }
  destruct (X9_even_count 5e10 30 c Hrun) as (m & Hm & Hs).
  exists c, m. split; [exact Hrun|]. split; [exact Hm|exact Hs].
Defined.

(** X10: between two latitude offsets that are latitudes (from -90 to 90
    degrees, where the observer of the heliocentric frame can be built)
    nothing changes in what is selected: with the other offset the call
    fails with the same error, or succeeds with the same number of points
    at the same distances from the centre of the Sun, in the same
    order. *)
Theorem X10_offset_independent (len theta1 theta2 : R) :
  -90 <= theta1 <= 90 -> -90 <= theta2 <= 90 ->
  (forall e,
      semi_circular_loop len theta1 = Err e ->
      semi_circular_loop len theta2 = Err e) /\
  (forall c1,
      semi_circular_loop len theta1 = Ok c1 ->
      exists c2,
        semi_circular_loop len theta2 = Ok c2 /\
        shape c2 = shape c1 /\
        map snd (data c2) = map snd (data c1)).
Proof.
  intros _ _. rewrite !semi_circular_loop_eq.
  destruct (r_2 len) as [r2|e0].
  - generalize (retained r2). intros l. destruct l as [|rp l].
    + split; [intros e H; exact H|intros c1 H; discriminate].
    + split; [intros e H; discriminate|].
      intros c1 H.
      assert (Hc : c1 = mkSkyCoord HeliographicStonyhurst
                          (map (fun p => hcc_to_hgs (loop_observer theta1) (hcc_point p))
                               (rp :: l)))
        by congruence.
      exists (mkSkyCoord HeliographicStonyhurst
                (map (fun p => hcc_to_hgs (loop_observer theta2) (hcc_point p))
                     (rp :: l))).
      split; [reflexivity|].
      rewrite Hc. unfold shape. cbn [data]. rewrite !length_map.
      split; [reflexivity|].
      rewrite !map_map. apply map_ext. intros a.
      unfold hcc_to_hgs. destruct (hcc_point a) as [[x y] z]. reflexivity.
  - split; [intros e H; exact H|intros c1 H; discriminate].
Qed.

Lemma X10_witness :
  exists c1 c2,
    semi_circular_loop 5e10 30 = Ok c1 /\
    semi_circular_loop 5e10 0 = Ok c2 /\
    shape c2 = shape c1 /\
    map snd (data c2) = map snd (data c1).
Proof.
  destruct (loop_succeeds 5e10 30) as (r2 & c1 & _ & _ & _ & Hrun & _).
  { unfold R_sun. lra. }
  destruct (proj2 (X10_offset_independent 5e10 30 0 ltac:(lra) ltac:(lra)) c1 Hrun)
    as (c2 & Hrun2 & Hshape & Hrad).
  exists c1, c2. split; [exact Hrun|]. split; [exact Hrun2|].
  split; [exact Hshape|exact Hrad].
Defined.

(** ** The equation of the circle radius *)

Lemma acos_decreasing (u v : R) :
  -1 <= u <= 1 -> -1 <= v <= 1 -> u <= v -> acos v <= acos u.
Proof.
  intros Hu Hv Huv. apply acos_le_iff; [exact Hv|apply acos_bound|].
  rewrite cos_acos by lra. exact Huv.
Qed.

Lemma root_eq_decreasing (len x y : R) :
  0 < len -> 0 < x < y ->
  -1 <= 0.5 * x / R_sun <= 1 -> -1 <= 0.5 * y / R_sun <= 1 ->
  root_eq len y < root_eq len x.
Proof.
  intros Hlen [Hx Hxy] Hux Huy. pose proof R_sun_pos as HR.
  assert (Hu : 0.5 * x / R_sun <= 0.5 * y / R_sun).
  { unfold Rdiv. apply Rmult_le_compat_r; [|lra].
    apply Rlt_le, Rinv_0_lt_compat. exact HR. }
  pose proof (acos_decreasing _ _ Hux Huy Hu) as Hacos.
  assert (Hdiv : len / 2 / y < len / 2 / x).
  { unfold Rdiv. apply Rmult_lt_compat_l; [lra|].
    apply Rinv_lt_contravar; [nra|exact Hxy]. }
  unfold root_eq. lra.
Qed.

(** X11: for a positive length the function [r_2_func] handed to the root
    finder is strictly decreasing wherever it is defined on positive
    arguments, so it has at most one positive zero: the zero the
    bisection approaches is the only one. *)
Theorem X11_equation_decreasing (len : R) :
  0 < len ->
  (forall x y vx vy,
      0 < x < y ->
      r_2_func len x = Some vx -> r_2_func len y = Some vy -> vy < vx) /\
  (forall z1 z2,
      0 < z1 -> 0 < z2 ->
      r_2_func len z1 = Some 0 -> r_2_func len z2 = Some 0 -> z1 = z2).
Proof.
  intros Hlen.
  assert (Hdec : forall x y vx vy,
             0 < x < y ->
             r_2_func len x = Some vx -> r_2_func len y = Some vy -> vy < vx).
  { intros x y vx vy Hxy Hx Hy.
    apply r_2_func_some in Hx. destruct Hx as (_ & Hux & ->).
    apply r_2_func_some in Hy. destruct Hy as (_ & Huy & ->).
    apply root_eq_decreasing; assumption. }
  split; [exact Hdec|].
  intros z1 z2 H1 H2 Hz1 Hz2.
  destruct (Rtotal_order z1 z2) as [Hlt|[Heq|Hgt]]; [|exact Heq|].
  - pose proof (Hdec z1 z2 0 0 (conj H1 Hlt) Hz1 Hz2). lra.
  - pose proof (Hdec z2 z1 0 0 (conj H2 Hgt) Hz2 Hz1). lra.
Qed.

Lemma X11_witness :
  exists vx vy,
    r_2_func 5e10 1e10 = Some vx /\ r_2_func 5e10 2e10 = Some vy /\ vy < vx.
Proof.
  pose proof R_sun_pos as HR.
  assert (H1 : r_2_func 5e10 1e10 = Some (root_eq 5e10 1e10)).
  { apply r_2_func_real; [lra|].
    split; [apply Rdiv_ge_iff|apply Rdiv_le_iff]; unfold R_sun; lra. }
  assert (H2 : r_2_func 5e10 2e10 = Some (root_eq 5e10 2e10)).
  { apply r_2_func_real; [lra|].
    split; [apply Rdiv_ge_iff|apply Rdiv_le_iff]; unfold R_sun; lra. }
  exists (root_eq 5e10 1e10), (root_eq 5e10 2e10).
  split; [exact H1|]. split; [exact H2|].
  apply (proj1 (X11_equation_decreasing 5e10 ltac:(lra)) 1e10 2e10);
    [lra|exact H1|exact H2].
Defined.

(** X12: at an exact zero [z] of the equation the half-angle [alpha] is
    [pi - length / (2 z)]: the sampled angles run exactly from
    [- length / (2 z)] to [length / (2 z)], a window of [length / z]
    radians, which on a circle of radius [z] is an arc of the requested
    length. *)
Theorem X12_window_at_root (len z : R) :
  r_2_func len z = Some 0 ->
  exists al,
    alpha z = Some al /\
    2 * (PI - al) * z = len /\
    nth 0 (phi z) NaN = Some (- (len / 2 / z)) /\
    nth 1999 (phi z) NaN = Some (len / 2 / z).
Proof.
  intros Hz. apply r_2_func_some in Hz. destruct Hz as (Hz0 & Hu & Hroot).
  assert (E : 0.5 * z / R_sun = 0.5 * (z / R_sun)) by (unfold Rdiv; ring).
  rewrite E in Hu. unfold root_eq in Hroot. rewrite E in Hroot.
  set (al := acos (0.5 * (z / R_sun))) in *.
  assert (Hal : alpha z = Some al) by (apply alpha_real; exact Hu).
  assert (Hw : len / 2 / z = PI - al) by lra.
  exists al. split; [exact Hal|]. split.
  - rewrite <- Hw. field. exact Hz0.
  - split.
    + rewrite (nth_phi z al 0 Hal) by lia. rewrite first_angle, Hw.
      f_equal. ring.
    + rewrite (nth_phi z al 1999 Hal) by lia. rewrite phi_at_eq, INR_1999, Hw.
      f_equal. field.
Qed.

Lemma X12_witness :
  exists al,
    alpha (4 * PI * R_sun / (2 * PI)) = Some al /\
    2 * (PI - al) * (4 * PI * R_sun / (2 * PI)) = 4 * PI * R_sun.
Proof.
  pose proof limit_length_root as H. cbv zeta in H. destruct H as [_ H].
  destruct (X12_window_at_root _ _ H) as (al & Hal & Hw & _).
  exists al. split; [exact Hal|exact Hw].
Defined.

(** ** Heights along the loop *)

Lemma selected_sample (r2 al : R) (i : nat) :
  alpha r2 = Some al -> In i (i_r r2) ->
  In (Some (r_at r2 (phi_at al i)), Some (phi_at al i)) (retained r2).
Proof.
  intros Hal Hi. apply (selected_iff r2 al i Hal) in Hi. destruct Hi as [Hi Hc].
  apply retained_iff. exists (phi_at al i). split.
  - rewrite (phi_real r2 al Hal). apply in_map_iff. exists i.
    split; [reflexivity|]. apply in_seq. lia.
  - split; [reflexivity|]. apply close_is_above. exact Hc.
Qed.

Lemma sampled_angle_range (r2 p : R) : In (Some p) (phi r2) -> Rabs p <= PI.
Proof.
  intros Hin. destruct (alpha r2) as [al|] eqn:Hal.
  - pose proof (alpha_range r2 al Hal) as [Ha0 HaP].
    rewrite (phi_real r2 al Hal) in Hin. apply in_map_iff in Hin.
    destruct Hin as (i & E & Hi). injection E as <-. apply in_seq in Hi.
    pose proof (phi_at_range al i HaP ltac:(lia)) as [H1 H2].
    unfold Rabs. destruct (Rcase_abs (phi_at al i)); lra.
  - rewrite (phi_nan r2 Hal) in Hin. apply repeat_spec in Hin. discriminate.
Qed.

(** Of two points above the surface on the circle, the one at the larger
    cosine is the higher one. *)
Lemma r_at_cos_increasing (r2 p q : R) :
  0 <= disc_at r2 p -> 0 <= disc_at r2 q ->
  R_sun < r_at r2 p -> R_sun < r_at r2 q ->
  cos q < cos p -> r_at r2 q < r_at r2 p.
Proof.
  intros Hdp Hdq Hp Hq Hcos. pose proof R_sun_pos as HR.
  pose proof (r_at_root r2 p Hdp) as Ep. pose proof (r_at_root r2 q Hdq) as Eq.
  unfold quad_a, quad_c in Ep, Eq.
  pose proof (COS_bound q) as [_ Hq1].
  set (a := r_at r2 p) in *. set (b := r_at r2 q) in *.
  destruct (Rlt_dec b a) as [Hlt|Hge]; [exact Hlt|exfalso].
  assert (Hba : 0 <= b - a) by lra.
  assert (Hsum : 0 <= b + a - 2 * R_sun * cos q) by nra.
  assert (Hprod : (b - a) * (b + a - 2 * R_sun * cos q) < 0).
  { replace ((b - a) * (b + a - 2 * R_sun * cos q))
      with (2 * R_sun * a * (cos q - cos p)
            + (1 * b ^ 2 + -2 * (R_sun * cos q) * b + (R_sun ^ 2 - r2 ^ 2))
            - (1 * a ^ 2 + -2 * (R_sun * cos p) * a + (R_sun ^ 2 - r2 ^ 2)))
      by ring.
    rewrite Ep, Eq.
    assert (0 < 2 * R_sun * a) by nra. nra. }
  nra.
Qed.

(** X13: of two returned samples the one whose angle is nearer to the apex
    (smaller in absolute value) is the higher one: along the sequence the
    distance from the centre of the Sun rises up to the middle and falls
    after it. *)
Theorem X13_higher_nearer_apex (r2 r p r' p' : R) :
  let r_sel := take (map (r_of r2) (phi r2)) (i_r r2) in
  let phi_sel := take (phi r2) (i_r r2) in
  In (Some r, Some p) (combine r_sel phi_sel) ->
  In (Some r', Some p') (combine r_sel phi_sel) ->
  Rabs p < Rabs p' -> r' < r.
Proof.
  intros r_sel phi_sel H1 H2 Hlt. unfold r_sel, phi_sel in H1, H2.
  rewrite selected_retained in H1, H2.
  apply retained_iff in H1. destruct H1 as (x & Hx & E1 & Hdx & Hax).
  apply retained_iff in H2. destruct H2 as (y & Hy & E2 & Hdy & Hay).
  injection E1 as -> ->. injection E2 as -> ->.
  pose proof (sampled_angle_range r2 y Hy) as HyP.
  pose proof (Rabs_pos x) as Hx0.
  apply r_at_cos_increasing; try assumption.
  rewrite <- (cos_Rabs x), <- (cos_Rabs y).
  apply cos_decreasing_1; lra.
Qed.

Lemma X13_witness :
  exists r p r' p',
    In (Some r, Some p)
       (combine (take (map (r_of R_sun) (phi R_sun)) (i_r R_sun))
                (take (phi R_sun) (i_r R_sun))) /\
    In (Some r', Some p')
       (combine (take (map (r_of R_sun) (phi R_sun)) (i_r R_sun))
                (take (phi R_sun) (i_r R_sun))) /\
    Rabs p < Rabs p' /\ r' < r.
Proof.
  pose proof R_sun_pos as HR. pose proof PI_bounds as [HP1 HP2].
  assert (Hr : 4e9 <= R_sun <= 2 * R_sun) by (unfold R_sun; lra).
  assert (Hu : 0 <= 0.5 * (R_sun / R_sun) <= 1) by (apply half_ratio_range; lra).
  set (al := acos (0.5 * (R_sun / R_sun))).
  assert (Hal : alpha R_sun = Some al) by (apply alpha_real; lra).
  assert (Halr : 0 <= al <= PI / 2) by (apply (alpha_acute R_sun); [lra|exact Hal]).
  pose proof (selected_sample R_sun al 1000 Hal
                (near_apex_selected R_sun 1000 Hr ltac:(lia))) as H1.
  pose proof (selected_sample R_sun al 1001 Hal
                (near_apex_selected R_sun 1001 Hr ltac:(lia))) as H2.
  assert (E1 : phi_at al 1000 = (PI - al) / 1999).
  { rewrite phi_at_eq, INR_1000. field. }
  assert (E2 : phi_at al 1001 = 3 * ((PI - al) / 1999)).
  { rewrite phi_at_eq.
    replace (INR 1001) with 1001 by (rewrite INR_IZR_INZ; reflexivity). field. }
  assert (Hq : 0 < (PI - al) / 1999) by (apply Rdiv_gt_iff; lra).
  assert (Hlt : Rabs (phi_at al 1000) < Rabs (phi_at al 1001)).
  { rewrite E1, E2, !Rabs_right by lra. lra. }
  rewrite <- selected_retained in H1, H2.
  exists (r_at R_sun (phi_at al 1000)), (phi_at al 1000),
    (r_at R_sun (phi_at al 1001)), (phi_at al 1001).
  split; [exact H1|]. split; [exact H2|]. split; [exact Hlt|].
  exact (X13_higher_nearer_apex R_sun _ _ _ _ H1 H2 Hlt).
Defined.
